(** * Fused L2 nearest-neighbour grouped GEMM kernel: scheduling model

    A shallow embedding of
    [cpp/include/raft/distance/detail/fused_l2_nn_gemm_grouped_custom.h]
    (struct [FusedL2NNWithGemmGrouped]): the host-side [Arguments] and
    [Params] structures, the capability check, the tile-grid arithmetic, the
    static partition of tiles over thread blocks, the pre-loop staging of row
    norms and the persistent tile loop with its flush decision.

    Integer conventions.  [uint32_t] and [unsigned] values are integers in
    [0, 2^32) and every unsigned operation is followed by its reduction
    modulo [2^32].  [int] values are integers in [-2^31, 2^31); [int]
    addition, subtraction and multiplication wrap around in two's
    complement, as the compiled kernel does, and [int] division is C++
    truncating division ([Z.quot]).  Conversions between the two kinds are
    written [u32] and [s32]. *)

From Stdlib Require Import Ascii String.
From Stdlib Require Import ZArith List Bool Lia FinFun.
Import ListNotations.
Local Open Scope Z_scope.

(** ** 32-bit conversions *)

Module Int32.

Definition modulus : Z := 2 ^ 32.
Definition INT_MAX : Z := 2 ^ 31 - 1.

(** Conversion to [uint32_t] / [unsigned]. *)
Definition u32 (x : Z) : Z := x mod modulus.

(** Conversion to [int]. *)
Definition s32 (x : Z) : Z :=
  let y := x mod modulus in if y <? 2 ^ 31 then y else y - modulus.

(** [int] arithmetic. *)
Definition int_add (a b : Z) : Z := s32 (a + b).
Definition int_sub (a b : Z) : Z := s32 (a - b).
Definition int_mul (a b : Z) : Z := s32 (a * b).

End Int32.
Import Int32.

(** ** Outcomes of device code

    Integer division by zero is the one run-time fault the scheduling code
    can raise; [OutOfFuel] is the artefact of bounding loops by a fuel
    argument. *)

Inductive outcome (A : Type) : Type :=
| Ok (a : A)
| DivByZero
| OutOfFuel.
Arguments Ok {A} a.
Arguments DivByZero {A}.
Arguments OutOfFuel {A}.

Definition bind {A B : Type} (x : outcome A) (f : A -> outcome B) : outcome B :=
  match x with
  | Ok a => f a
  | DivByZero => DivByZero
  | OutOfFuel => OutOfFuel
  end.

Notation "x <- c1 ;; c2" := (bind c1 (fun x => c2))
  (at level 61, c1 at next level, right associativity).

(** Unsigned [/] and [%]. *)
Definition udiv (a b : Z) : outcome Z :=
  if b =? 0 then DivByZero else Ok (a / b).
Definition umod (a b : Z) : outcome Z :=
  if b =? 0 then DivByZero else Ok (a mod b).

(** ** Coordinates *)

(** [cutlass::gemm::GemmCoord] *)
Record GemmCoord : Type := mkGemmCoord { m : Z; n : Z; k : Z }.

(** [cutlass::MatrixCoord] *)
Record MatrixCoord : Type := mkMatrixCoord { row : Z; column : Z }.

(** [cutlass::Status], restricted to the values relevant here. *)
Inductive Status : Type :=
| kSuccess
| kErrorMisalignedOperand
| kErrorInvalidProblem
| kErrorNotSupported
| kErrorInternal.

(** ** Host-side structures *)

Section HostStructures.

(** Types supplied by the template arguments [Mma_] and [Epilogue_]. *)
Variable OutputOpParams : Type.      (* EpilogueOutputOp::Params *)
Variable IteratorAParams : Type.     (* Mma::IteratorA::Params *)
Variable IteratorBParams : Type.     (* Mma::IteratorB::Params *)
Variable OutputTileParams : Type.    (* Epilogue::OutputTileIterator::Params *)
Variable TensorTileParams : Type.    (* Epilogue::TensorTileIterator::Params *)

(** Their constructors from a leading dimension. *)
Variable mkIteratorAParams : Z -> IteratorAParams.
Variable mkIteratorBParams : Z -> IteratorBParams.
Variable mkOutputTileParams : Z -> OutputTileParams.
Variable mkTensorTileParams : Z -> OutputOpParams -> TensorTileParams.

Record temp_problem_visitor : Type := mk_temp_problem_visitor
  { problem_count : Z }.

(** Pointers are addresses; [nullptr] is [0]. *)
Definition pointer : Type := Z.
Definition nullptr : pointer := 0.

Record Arguments : Type := mkArguments
  { a_problem_sizes : GemmCoord;
    a_problem_visitor : temp_problem_visitor;
    a_problem_count : Z;
    a_threadblock_count : Z;
    a_output_op : OutputOpParams;
    a_ptr_A : pointer;
    a_ptr_B : pointer;
    a_ptr_C : pointer;
    a_ptr_Vector : pointer;
    a_ptr_Tensor : pointer;
    a_lda : Z;
    a_ldb : Z;
    a_ldc : Z;
    a_ldt : Z;
    a_host_problem_sizes : pointer }.

Record Params : Type := mkParams
  { problem_visitor : temp_problem_visitor;
    threadblock_count : Z;
    params_A : IteratorAParams;
    params_B : IteratorBParams;
    params_C : OutputTileParams;
    params_Tensor : TensorTileParams;
    output_op : OutputOpParams;
    ptr_A : pointer;
    ptr_B : pointer;
    ptr_C : pointer;
    ptr_Vector : pointer;
    ptr_Tensor : pointer;
    problem_size : GemmCoord;
    lda : Z;
    ldb : Z;
    ldc : Z;
    ldt : Z }.

(** [Params(Arguments const& args, void* workspace, int tile_count)] *)
Definition Params_of_Arguments (args : Arguments) : Params :=
  {| problem_visitor :=
       {| problem_count := problem_count (a_problem_visitor args) |};
     threadblock_count := a_threadblock_count args;
     params_A := mkIteratorAParams (a_lda args);
     params_B := mkIteratorBParams (a_ldb args);
     params_C := mkOutputTileParams (a_ldc args);
     params_Tensor := mkTensorTileParams (a_ldt args) (a_output_op args);
     output_op := a_output_op args;
     ptr_A := a_ptr_A args;
     ptr_B := a_ptr_B args;
     ptr_C := a_ptr_C args;
     ptr_Vector := a_ptr_Vector args;
     ptr_Tensor := a_ptr_Tensor args;
     problem_size := a_problem_sizes args;
     lda := a_lda args;
     ldb := a_ldb args;
     ldc := a_ldc args;
     ldt := a_ldt args |}.

(** [Params::update(Arguments const& args, ...)]: eleven assignments and
    then [problem_size = args.problem_sizes]; every other member keeps
    its value. *)
Definition update (p : Params) (args : Arguments) : Params :=
  {| problem_visitor := problem_visitor p;
     threadblock_count := a_threadblock_count args;
     params_A := params_A p;
     params_B := params_B p;
     params_C := params_C p;
     params_Tensor := params_Tensor p;
     output_op := a_output_op args;
     ptr_A := a_ptr_A args;
     ptr_B := a_ptr_B args;
     ptr_C := a_ptr_C args;
     ptr_Vector := a_ptr_Vector args;
     ptr_Tensor := a_ptr_Tensor args;
     problem_size := a_problem_sizes args;
     lda := a_lda args;
     ldb := a_ldb args;
     ldc := a_ldc args;
     ldt := a_ldt args |}.

(** [static Status can_implement(GemmCoord const&)] *)
Definition can_implement_problem (problem_size : GemmCoord) : Status :=
  kSuccess.

(** [static Status can_implement(Arguments const&)] *)
Definition can_implement (args : Arguments) : Status := kSuccess.

(** [get_extra_workspace_size] *)
Definition get_extra_workspace_size
    (args : Arguments) (grid_tiled_shape : GemmCoord) : Z := 0.

End HostStructures.

Arguments update {_ _ _ _ _} p args.
Arguments can_implement {_} args.
Arguments Params_of_Arguments {_ _ _ _ _} _ _ _ _ args.

(** ** Launch context

    The built-in variables of one thread: [gridDim.x], [blockIdx.x],
    [blockDim.x] and [threadIdx.x], all [unsigned]. *)

Record launch : Type := mkLaunch
  { gridDim_x : Z;
    blockIdx_x : Z;
    blockDim_x : Z;
    threadIdx_x : Z }.

(** ** Observable actions of one thread

    The kernel is modelled by the sequence of scheduling decisions one
    thread takes; the matrix product and the epilogue arithmetic of a tile
    are summarised by the arguments they are started with, and the
    [cp_async_wait] that follows each copy is not recorded. *)

Inductive event : Type :=
| InitReduced (row : Z)
    (* red_op_.init(&shared_elem_arr_[row], maxVal_) *)
| CpAsync (smem_index gmem_index : Z) (guard : bool)
    (* cp_async(shared_elem_arr + row_local, gmem_ptr + row_local, guard),
       gmem_index counted in elements from params.ptr_C *)
| Tile (tile_idx : Z) (threadblock_offset : MatrixCoord)
       (do_gmem_reduce : bool) (gemm_k_iterations : Z).
    (* one iteration of the persistent loop *)

Definition tile_idx_of (e : event) : option Z :=
  match e with Tile t _ _ _ => Some t | _ => None end.

(** Global row-norm elements actually read by a list of actions: a
    [cp_async] whose guard is false transfers nothing. *)
Fixpoint gmem_reads (evs : list event) : list Z :=
  match evs with
  | [] => []
  | CpAsync _ g true :: rest => g :: gmem_reads rest
  | _ :: rest => gmem_reads rest
  end.

(** ** Device code *)

Section Kernel.

(** [ThreadblockShape::kM], [kN], [kK] (= [Mma::Shape]). *)
Variables kM kN kK : Z.

(** [grid_shape_] *)
Definition grid_shape_ (problem : GemmCoord) : MatrixCoord :=
  {| row := Z.quot (int_add (int_sub (m problem) 1) kM) kM;
     column := Z.quot (int_add (int_sub (n problem) 1) kN) kN |}.

(** [tile_count_]: an [int] product returned as [uint32_t]. *)
Definition tile_count_ (grid : MatrixCoord) : Z :=
  u32 (int_mul (row grid) (column grid)).

(** [(tile_count_(grid_shape_(problem_size)) - 1 + gridDim.x) / gridDim.x]
    ([gridDim.x] is at least 1 on every launch). *)
Definition problem_chunk (problem_size : GemmCoord) (ctx : launch) : Z :=
  u32 (u32 (tile_count_ (grid_shape_ problem_size) - 1) + gridDim_x ctx)
    / gridDim_x ctx.

(** [blockIdx.x * problem_chunk], the first tile of the block. *)
Definition problem_chunk_start (problem_size : GemmCoord) (ctx : launch) : Z :=
  u32 (blockIdx_x ctx * problem_chunk problem_size ctx).

(** [blockIdx.x * problem_chunk + problem_chunk] *)
Definition problem_chunk_end (problem_size : GemmCoord) (ctx : launch) : Z :=
  u32 (problem_chunk_start problem_size ctx + problem_chunk problem_size ctx).

(** [custom_next_tile_] *)
Definition custom_next_tile_
    (problem_size : GemmCoord) (ctx : launch) (tile_idx_ : Z) : bool :=
  if tile_idx_ <? problem_chunk_end problem_size ctx then true else false.

(** Line 407: the column offset of the block's first tile,
    [((blockIdx.x * problem_chunk) % grid_shape.column()) * Mma::Shape::kN]
    computed in [unsigned] and stored in an [int]. *)
Definition first_column (problem_size : GemmCoord) (ctx : launch) : outcome Z :=
  let grid_shape := grid_shape_ problem_size in
  r <- umod (problem_chunk_start problem_size ctx) (u32 (column grid_shape)) ;;
  Ok (s32 (u32 (r * u32 kN))).

(** The index sequence of
    [for (int row = threadIdx.x; row < Mma::Shape::kM; row += blockDim.x)]. *)
Fixpoint strided_rows (fuel : nat) (blockDim : Z) (row : Z) : outcome (list Z) :=
  if row <? kM then
    match fuel with
    | O => OutOfFuel
    | S fuel' =>
        rest <- strided_rows fuel' blockDim (s32 (u32 (u32 row + blockDim))) ;;
        Ok (row :: rest)
    end
  else Ok [].

(** Lines 408-417: reset of the per-row reduction state. *)
Definition init_reduced_store
    (fuel : nat) (ctx : launch) (column : Z) : outcome (list event) :=
  if column =? 0 then Ok []
  else
    rows <- strided_rows fuel (blockDim_x ctx) (s32 (threadIdx_x ctx)) ;;
    Ok (map InitReduced rows).

(** Line 422: first row of the band the block starts in. *)
Definition prefetch_row (problem_size : GemmCoord) (ctx : launch) : outcome Z :=
  let grid_shape := grid_shape_ problem_size in
  q <- udiv (problem_chunk_start problem_size ctx) (u32 (column grid_shape)) ;;
  Ok (s32 (u32 (q * u32 kM))).

(** Lines 419-434: staging of the row norms into [rownorm_store].  The
    guard of line 429 is an [int] sum; the source address of line 430 is
    formed with 64-bit pointer arithmetic. *)
Definition prefetch_rownorm
    (fuel : nat) (problem_size : GemmCoord) (ctx : launch) (column : Z)
  : outcome (list event) :=
  if column =? 0 then Ok []
  else
    row <- prefetch_row problem_size ctx ;;
    rows <- strided_rows fuel (blockDim_x ctx) (s32 (threadIdx_x ctx)) ;;
    Ok (map (fun row_local =>
               CpAsync row_local (row + row_local)
                       (int_add row row_local <? m problem_size)) rows).

(** Lines 439-442: [threadblock_offset] of a tile. *)
Definition threadblock_offset
    (problem_size : GemmCoord) (tile_idx : Z) : outcome MatrixCoord :=
  let grid_shape := grid_shape_ problem_size in
  q <- udiv tile_idx (u32 (column grid_shape)) ;;
  r <- umod tile_idx (u32 (column grid_shape)) ;;
  Ok {| row := int_mul (s32 q) kM; column := int_mul (s32 r) kN |}.

(** Line 447 *)
Definition doesRowChange (problem_size : GemmCoord) (off : MatrixCoord) : bool :=
  int_add (column off) kN >=? n problem_size.

(** Line 445 *)
Definition isNextTile (chunk_end tile_idx : Z) : bool :=
  u32 (tile_idx + 1) <? chunk_end.

(** Line 491: number of main-loop steps over the reduction dimension. *)
Definition gemm_k_iterations (problem_size : GemmCoord) : Z :=
  Z.quot (int_sub (int_add (k problem_size) kK) 1) kK.

(** The body of the persistent loop, lines 439-564. *)
Definition tile_body
    (problem_size : GemmCoord) (chunk_end tile_idx : Z) : outcome event :=
  off <- threadblock_offset problem_size tile_idx ;;
  let do_gmem_reduce :=
    if doesRowChange problem_size off || negb (isNextTile chunk_end tile_idx)
    then true else false in
  Ok (Tile tile_idx off do_gmem_reduce (gemm_k_iterations problem_size)).

(** Line 437:
    [for (tile_idx = blockIdx.x * problem_chunk; tile_idx < problem_chunk_end; tile_idx++)] *)
Fixpoint persistent_loop
    (fuel : nat) (problem_size : GemmCoord) (chunk_end tile_idx : Z)
  : outcome (list event) :=
  if tile_idx <? chunk_end then
    match fuel with
    | O => OutOfFuel
    | S fuel' =>
        e <- tile_body problem_size chunk_end tile_idx ;;
        rest <- persistent_loop fuel' problem_size chunk_end (u32 (tile_idx + 1)) ;;
        Ok (e :: rest)
    end
  else Ok [].

(** The tiles of one block: the persistent loop from its first tile. *)
Definition block_tiles
    (fuel : nat) (problem_size : GemmCoord) (ctx : launch) : outcome (list event) :=
  persistent_loop fuel problem_size
    (problem_chunk_end problem_size ctx) (problem_chunk_start problem_size ctx).

(** [operator()], as seen by one thread; [params.problem_size] is the
    only member of [params] the schedule depends on. *)
Definition operator_call
    (fuel : nat) (problem_size : GemmCoord) (ctx : launch) : outcome (list event) :=
  column <- first_column problem_size ctx ;;
  init <- init_reduced_store fuel ctx column ;;
  pre <- prefetch_rownorm fuel problem_size ctx column ;;
  tiles <- block_tiles fuel problem_size ctx ;;
  Ok (init ++ pre ++ tiles).

End Kernel.

(** Tile indices visited by a list of actions, in order. *)
Fixpoint tile_indices (evs : list event) : list Z :=
  match evs with
  | [] => []
  | Tile t _ _ _ :: rest => t :: tile_indices rest
  | _ :: rest => tile_indices rest
  end.

(** ** Shared-memory layout

    [struct SharedStorage] holds an anonymous union [kernel] of
    [main_loop] and [epilogue_combined_store], followed by the members
    [reduced_store] and [rownorm_store].  Members of a struct are laid out
    in declaration order, each at the next offset that satisfies its
    alignment; the members of a union all start at offset 0 of the union.
    The shared memory of a block is a map from byte offsets to bytes. *)

Module SharedStorage.

Record type_layout : Type := mkLayout { size_of : Z; align_of : Z }.

Definition align_up (offset alignment : Z) : Z :=
  (offset + alignment - 1) / alignment * alignment.

Inductive member : Type :=
| main_loop        (* kernel.main_loop *)
| epilogue         (* kernel.epilogue_combined_store.epilogue *)
| reduced_store
| rownorm_store.

Definition smem : Type := Z -> Z.

Definition store (s : smem) (addr v : Z) : smem :=
  fun a => if a =? addr then v else s a.

Section Layout.

(** Layouts of [Mma::SharedStorage], [Epilogue::SharedStorage],
    [Epilogue::TensorTileIterator::SharedStorage] and
    [Epilogue::OutputTileIterator::SharedStorage]. *)
Variables main_loop_t epilogue_t reduced_store_t rownorm_store_t : type_layout.

(** [struct epilogue_SharedStorage { Epilogue::SharedStorage epilogue; }] *)
Definition epilogue_SharedStorage_t : type_layout :=
  {| size_of := align_up (size_of epilogue_t) (align_of epilogue_t);
     align_of := align_of epilogue_t |}.

(** [union { main_loop; epilogue_combined_store; } kernel] *)
Definition kernel_t : type_layout :=
  let a := Z.max (align_of main_loop_t) (align_of epilogue_SharedStorage_t) in
  {| size_of :=
       align_up (Z.max (size_of main_loop_t) (size_of epilogue_SharedStorage_t)) a;
     align_of := a |}.

Definition offset_kernel : Z := 0.
Definition offset_reduced_store : Z :=
  align_up (offset_kernel + size_of kernel_t) (align_of reduced_store_t).
Definition offset_rownorm_store : Z :=
  align_up (offset_reduced_store + size_of reduced_store_t)
           (align_of rownorm_store_t).

Definition member_offset (mb : member) : Z :=
  match mb with
  | main_loop => offset_kernel
  | epilogue => offset_kernel
  | reduced_store => offset_reduced_store
  | rownorm_store => offset_rownorm_store
  end.

Definition member_size (mb : member) : Z :=
  match mb with
  | main_loop => size_of main_loop_t
  | epilogue => size_of epilogue_t
  | reduced_store => size_of reduced_store_t
  | rownorm_store => size_of rownorm_store_t
  end.

(** A byte written through a member, at an offset inside that member. *)
Definition write (mb : member) (i v : Z) (s : smem) : option smem :=
  if (0 <=? i) && (i <? member_size mb)
  then Some (store s (member_offset mb + i) v)
  else None.

(** All bytes of a member, in address order. *)
Definition contents (mb : member) (s : smem) : list Z :=
  map (fun i => s (member_offset mb + Z.of_nat i))
      (seq 0 (Z.to_nat (member_size mb))).

End Layout.

End SharedStorage.

(** ** Reference definitions, in the words of the specification *)

(** [ceil (a / b)] *)
Definition ceil_div (a b : Z) : Z :=
  if a mod b =? 0 then a / b else a / b + 1.

(** The integers of the half-open interval [[lo, hi)], ascending. *)
Definition Zrange (lo hi : Z) : list Z :=
  map (fun i => lo + Z.of_nat i) (seq 0 (Z.to_nat (hi - lo))).

(** The range of tiles the specification assigns to a compute unit:
    [[unit_index*chunk_size, min(total_tiles, unit_index*chunk_size + chunk_size))]
    with [chunk_size = ceil(total_tiles / total_units)]. *)
Definition spec_tile_range (total_tiles total_units unit_index : Z) : list Z :=
  let chunk_size := ceil_div total_tiles total_units in
  Zrange (unit_index * chunk_size)
         (Z.min total_tiles (unit_index * chunk_size + chunk_size)).

(** Side conditions: tile extents are positive, and the problem extents,
    the padded extents [M - 1 + kM] and [N - 1 + kN] of lines 363-364 and
    the tile count are representable in [int]. *)
Definition representable (kM kN : Z) (problem : GemmCoord) : Prop :=
  1 <= kM /\ 1 <= kN /\
  (0 <= m problem /\ m problem - 1 + kM <= INT_MAX) /\
  (0 <= n problem /\ n problem - 1 + kN <= INT_MAX) /\
  row (grid_shape_ kM kN problem) * column (grid_shape_ kM kN problem) <= INT_MAX.

(** The launch context of a thread: at least one block and one thread per
    block, within the limits of the [x] dimension. *)
Definition launched (ctx : launch) : Prop :=
  1 <= gridDim_x ctx <= INT_MAX /\
  0 <= blockIdx_x ctx < gridDim_x ctx /\
  1 <= blockDim_x ctx <= 1024 /\
  0 <= threadIdx_x ctx < blockDim_x ctx.

(** Block [b] of a grid of [g] blocks, seen from its thread 0. *)
Definition unit_launch (g b : Z) : launch :=
  {| gridDim_x := g; blockIdx_x := b; blockDim_x := 32; threadIdx_x := 0 |}.

(** Block [b] of a grid of [g] blocks executes tile [t]. *)
Definition processes (kM kN kK : Z) (fuel : nat) (problem : GemmCoord)
    (g b : Z) (t : Z) : Prop :=
  exists evs,
    block_tiles kM kN kK fuel problem (unit_launch g b) = Ok evs /\
    In t (tile_indices evs).

(** ** Concrete configurations *)

(** An 8 x 8 problem; with 4 x 4 tiles it has 2 row-bands of 2 tiles. *)
Definition problem_8x8 : GemmCoord := {| m := 8; n := 8; k := 2 |}.

(** Arguments whose operand address and leading dimensions are odd, so
    that no vectorised access of two or more elements is aligned. *)
Definition misaligned_arguments : Arguments unit :=
  {| a_problem_sizes := problem_8x8;
     a_problem_visitor := {| problem_count := 1 |};
     a_problem_count := 1;
     a_threadblock_count := 2;
     a_output_op := tt;
     a_ptr_A := 4097;
     a_ptr_B := 8193;
     a_ptr_C := 12289;
     a_ptr_Vector := 16385;
     a_ptr_Tensor := 20481;
     a_lda := 3;
     a_ldb := 3;
     a_ldc := 1;
     a_ldt := 1;
     a_host_problem_sizes := nullptr |}.

(** An 8 x 12 problem; with 4 x 4 tiles it has 2 row-bands of 3 tiles. *)
Definition problem_8x12 : GemmCoord := {| m := 8; n := 12; k := 2 |}.

(** Sample layouts of the four shared-storage types. *)
Definition sample_main_loop_t : SharedStorage.type_layout :=
  {| SharedStorage.size_of := 48; SharedStorage.align_of := 16 |}.
Definition sample_epilogue_t : SharedStorage.type_layout :=
  {| SharedStorage.size_of := 20; SharedStorage.align_of := 4 |}.
Definition sample_reduced_store_t : SharedStorage.type_layout :=
  {| SharedStorage.size_of := 16; SharedStorage.align_of := 8 |}.
Definition sample_rownorm_store_t : SharedStorage.type_layout :=
  {| SharedStorage.size_of := 16; SharedStorage.align_of := 4 |}.

(** A type layout is well formed when its size is not negative and its
    alignment is positive. *)
Definition well_formed_layout (t : SharedStorage.type_layout) : Prop :=
  0 <= SharedStorage.size_of t /\ 1 <= SharedStorage.align_of t.

(** ** Further parts of the kernel *)

(** The output element [(i, j)] lies in the [kM] x [kN] tile that starts
    at the offset of tile [tile_idx]. *)
Definition tile_covers (kM kN : Z) (problem : GemmCoord) (tile_idx i j : Z) : Prop :=
  exists off,
    threadblock_offset kM kN problem tile_idx = Ok off /\
    row off <= i < row off + kM /\
    column off <= j < column off + kN.

(** [kThreadCount = 32 * WarpCount::kCount] *)
Definition kThreadCount (kWarpCount : Z) : Z := 32 * kWarpCount.

(** [__shfl_sync(0xffffffff, var, 0)] in a one-dimensional block: the
    value of [var] held by lane 0 of the calling thread's warp. *)
Definition shfl_sync_lane0 (var : Z -> Z) (threadIdx : Z) : Z :=
  var (threadIdx - threadIdx mod 32).

(** Line 476: [int warp_idx = __shfl_sync(0xffffffff, threadIdx.x / 32, 0)] *)
Definition warp_idx (threadIdx : Z) : Z :=
  s32 (shfl_sync_lane0 (fun t => t / 32) threadIdx).

(** Line 478: [int lane_idx = threadIdx.x % 32] *)
Definition lane_idx (threadIdx : Z) : Z := s32 (threadIdx mod 32).

(** [Arguments(problem_sizes, problem_count, threadblock_count, ...)]:
    the member [problem_count] of [Arguments] is not initialised by the
    constructor; [indeterminate] stands for whatever it holds. *)
Definition Arguments_ctor {O : Type} (indeterminate : Z)
    (problem_sizes : GemmCoord) (problem_count_ threadblock_count_ : Z)
    (output_op_ : O)
    (ptr_A_ ptr_B_ ptr_C_ ptr_Vector_ ptr_Tensor_ : pointer)
    (lda_ ldb_ ldc_ ldt_ : Z) (host_problem_sizes : pointer) : Arguments O :=
  {| a_problem_sizes := problem_sizes;
     a_problem_visitor := {| problem_count := problem_count_ |};
     a_problem_count := indeterminate;
     a_threadblock_count := threadblock_count_;
     a_output_op := output_op_;
     a_ptr_A := ptr_A_;
     a_ptr_B := ptr_B_;
     a_ptr_C := ptr_C_;
     a_ptr_Vector := ptr_Vector_;
     a_ptr_Tensor := ptr_Tensor_;
     a_lda := lda_;
     a_ldb := ldb_;
     a_ldc := ldc_;
     a_ldt := ldt_;
     a_host_problem_sizes := host_problem_sizes |}.

(** ** Host utilities ([cudart_utils.h]) *)

(** [warp_size()] *)
Definition warp_size : Z := 32.

(** The text of ["\n"]. *)
Definition newline : string := String "010"%char EmptyString.

Section PrintHostVector.

(** The element type and its [operator<<]. *)
Variable T : Type.
Variable show : T -> string.

(** One iteration of the loop of [print_host_vector]:
    [if (i != 0) out << ","; out << host_mem[i];] *)
Definition print_component (host_mem : nat -> T) (i : nat) (out : string) : string :=
  let out := if negb (i =? 0)%nat then (out ++ ",")%string else out in
  (out ++ show (host_mem i))%string.

(** [for (size_t i = ...; i < componentsCount; ++i)], with [remaining]
    iterations to go from index [i]. *)
Fixpoint print_components
    (host_mem : nat -> T) (remaining i : nat) (out : string) : string :=
  match remaining with
  | O => out
  | S remaining' =>
      print_components host_mem remaining' (S i) (print_component host_mem i out)
  end.

(** [print_host_vector]; the stream is the text written so far. *)
Definition print_host_vector
    (variable_name : string) (host_mem : nat -> T) (componentsCount : nat)
    (out : string) : string :=
  let out := ((out ++ variable_name) ++ "=[")%string in
  let out := print_components host_mem componentsCount 0 out in
  ((out ++ "];") ++ newline)%string.

End PrintHostVector.

(** * Properties *)

Ltac closed_arith :=
  repeat split; vm_compute; try reflexivity; intros; discriminate.

(** ** Arithmetic of the conversions *)

Lemma modulus_eq : modulus = 4294967296.
Proof. reflexivity. Qed.

Lemma INT_MAX_eq : INT_MAX = 2147483647.
Proof. reflexivity. Qed.

Lemma u32_small (x : Z) : 0 <= x < modulus -> u32 x = x.
Proof. intros H. unfold u32. now apply Z.mod_small. Qed.

Lemma u32_range (x : Z) : 0 <= u32 x < modulus.
Proof. unfold u32. apply Z.mod_pos_bound. now rewrite modulus_eq. Qed.

Lemma s32_small (x : Z) : 0 <= x <= INT_MAX -> s32 x = x.
Proof.
  intros H. rewrite INT_MAX_eq in H. unfold s32.
  rewrite Z.mod_small by (rewrite modulus_eq; lia).
  change (2 ^ 31) with 2147483648.
  destruct (Z.ltb_spec x 2147483648); lia.
Qed.

Lemma s32_exact (x : Z) : - INT_MAX - 1 <= x <= INT_MAX -> s32 x = x.
Proof.
  intros H. rewrite INT_MAX_eq in H. unfold s32. rewrite modulus_eq.
  change (2 ^ 31) with 2147483648.
  destruct (Z.neg_nonneg_cases x) as [Hneg|Hpos].
  - replace (x mod 4294967296) with (x + 4294967296).
    + destruct (Z.ltb_spec (x + 4294967296) 2147483648); lia.
    + apply (Z.mod_unique _ _ (-1)); lia.
  - rewrite Z.mod_small by lia.
    destruct (Z.ltb_spec x 2147483648); lia.
Qed.

Lemma s32_range (x : Z) : - INT_MAX - 1 <= s32 x <= INT_MAX.
Proof.
  rewrite INT_MAX_eq. unfold s32.
  pose proof (Z.mod_pos_bound x modulus ltac:(now rewrite modulus_eq)) as H.
  rewrite modulus_eq in *. change (2 ^ 31) with 2147483648.
  destruct (Z.ltb_spec (x mod 4294967296) 2147483648); lia.
Qed.

Lemma s32_congr (x y : Z) : x mod modulus = y mod modulus -> s32 x = s32 y.
Proof. intros E. unfold s32. now rewrite E. Qed.

Lemma s32_mod (x : Z) : s32 x mod modulus = x mod modulus.
Proof.
  unfold s32. rewrite modulus_eq. change (2 ^ 31) with 2147483648.
  destruct (Z.ltb_spec (x mod 4294967296) 2147483648).
  - apply Z.mod_mod. lia.
  - replace (x mod 4294967296 - 4294967296)
      with (x mod 4294967296 + (-1) * 4294967296) by lia.
    rewrite Z.mod_add by lia. apply Z.mod_mod. lia.
Qed.

Lemma u32_s32 (x : Z) : u32 (s32 x) = u32 x.
Proof. apply s32_mod. Qed.

(** Wrapped arithmetic depends only on the exact result. *)
Lemma int_add_sub_exact (a b c : Z) :
  - INT_MAX - 1 <= a - b + c <= INT_MAX ->
  int_add (int_sub a b) c = a - b + c.
Proof.
  intros H. unfold int_add, int_sub.
  rewrite <- (s32_exact (a - b + c)) by assumption.
  apply s32_congr. rewrite Z.add_mod, s32_mod, <- Z.add_mod;
    [reflexivity|now rewrite modulus_eq|now rewrite modulus_eq].
Qed.

Lemma int_sub_add_exact (a b c : Z) :
  - INT_MAX - 1 <= a + b - c <= INT_MAX ->
  int_sub (int_add a b) c = a + b - c.
Proof.
  intros H. unfold int_add, int_sub.
  rewrite <- (s32_exact (a + b - c)) by assumption.
  apply s32_congr. rewrite Zminus_mod, s32_mod, <- Zminus_mod. reflexivity.
Qed.

Lemma int_add_exact (a b : Z) :
  - INT_MAX - 1 <= a + b <= INT_MAX -> int_add a b = a + b.
Proof. apply s32_exact. Qed.

Lemma int_mul_exact (a b : Z) :
  - INT_MAX - 1 <= a * b <= INT_MAX -> int_mul a b = a * b.
Proof. apply s32_exact. Qed.

(** A zero extent pads to less than one tile, whatever the tile extent. *)
Lemma padded_zero_extent (kT : Z) :
  1 <= kT -> Z.quot (int_add (int_sub 0 1) kT) kT = 0.
Proof.
  intros HkT. pose proof INT_MAX_eq as Hmax.
  change (int_sub 0 1) with (-1). unfold int_add.
  pose proof (s32_range (-1 + kT)) as Hr.
  destruct (Z.le_gt_cases (-1 + kT) INT_MAX) as [Hle|Hgt].
  - rewrite s32_exact by lia. apply Z.quot_small. lia.
  - destruct (Z.neg_nonneg_cases (s32 (-1 + kT))) as [Hneg|Hpos].
    + rewrite <- (Z.opp_involutive (s32 (-1 + kT))).
      rewrite Z.quot_opp_l by lia.
      rewrite Z.quot_small by lia. reflexivity.
    + apply Z.quot_small. lia.
Qed.

(** ** Ceiling division *)

Lemma ceil_div_bounds (a b : Z) :
  1 <= b -> (ceil_div a b - 1) * b < a <= ceil_div a b * b.
Proof.
  intros Hb. unfold ceil_div.
  pose proof (Z.div_mod a b ltac:(lia)) as E.
  pose proof (Z.mod_pos_bound a b ltac:(lia)) as B.
  destruct (Z.eqb_spec (a mod b) 0); nia.
Qed.

Lemma ceil_div_unique (a b c : Z) :
  1 <= b -> (c - 1) * b < a <= c * b -> c = ceil_div a b.
Proof.
  intros Hb Hc. pose proof (ceil_div_bounds a b Hb). nia.
Qed.

Lemma ceil_div_add (a b : Z) :
  1 <= b -> (a - 1 + b) / b = ceil_div a b.
Proof.
  intros Hb. apply ceil_div_unique; [assumption|].
  pose proof (Z.div_mod (a - 1 + b) b ltac:(lia)) as E.
  pose proof (Z.mod_pos_bound (a - 1 + b) b ltac:(lia)) as B.
  nia.
Qed.

Lemma ceil_div_quot (a b : Z) :
  1 <= b -> 0 <= a -> Z.quot (a - 1 + b) b = ceil_div a b.
Proof.
  intros Hb Ha. rewrite Z.quot_div_nonneg by lia. now apply ceil_div_add.
Qed.

Lemma ceil_div_pos (a b : Z) : 1 <= b -> 1 <= a -> 1 <= ceil_div a b.
Proof. intros Hb Ha. pose proof (ceil_div_bounds a b Hb). nia. Qed.

Lemma ceil_div_nonneg (a b : Z) : 1 <= b -> 0 <= a -> 0 <= ceil_div a b.
Proof. intros Hb Ha. pose proof (ceil_div_bounds a b Hb). nia. Qed.

Lemma ceil_div_le (a b : Z) : 1 <= b -> 0 <= a -> ceil_div a b <= a.
Proof. intros Hb Ha. pose proof (ceil_div_bounds a b Hb). nia. Qed.

Lemma ceil_div_0 (b : Z) : 1 <= b -> ceil_div 0 b = 0.
Proof.
  intros Hb. symmetry. apply ceil_div_unique; lia.
Qed.

(** ** The tile grid *)

Section GridFacts.

Variables kM kN : Z.
Hypothesis HkM : 1 <= kM.
Hypothesis HkN : 1 <= kN.

Lemma grid_shape_ceil (problem : GemmCoord) :
  0 <= m problem -> m problem - 1 + kM <= INT_MAX ->
  0 <= n problem -> n problem - 1 + kN <= INT_MAX ->
  grid_shape_ kM kN problem =
  {| row := ceil_div (m problem) kM; column := ceil_div (n problem) kN |}.
Proof.
  intros Hm Hm' Hn Hn'. unfold grid_shape_.
  rewrite !int_add_sub_exact by lia.
  now rewrite !ceil_div_quot.
Qed.

Lemma grid_column_exact (problem : GemmCoord) :
  0 <= n problem -> n problem - 1 + kN <= INT_MAX ->
  column (grid_shape_ kM kN problem) = ceil_div (n problem) kN.
Proof.
  intros Hn Hn'. pose proof INT_MAX_eq. unfold grid_shape_; cbn [column].
  rewrite int_add_sub_exact by lia. now apply ceil_div_quot.
Qed.

Lemma grid_column_u32 (problem : GemmCoord) :
  0 <= n problem -> n problem - 1 + kN <= INT_MAX ->
  u32 (column (grid_shape_ kM kN problem)) = ceil_div (n problem) kN.
Proof.
  intros Hn Hn'. pose proof INT_MAX_eq. unfold grid_shape_; simpl.
  rewrite int_add_sub_exact by lia.
  rewrite ceil_div_quot by lia.
  apply u32_small. rewrite modulus_eq.
  pose proof (ceil_div_nonneg (n problem) kN).
  pose proof (ceil_div_le (n problem) kN). lia.
Qed.

End GridFacts.

(** ** Integer intervals *)

Lemma Zrange_nil (lo hi : Z) : hi <= lo -> Zrange lo hi = [].
Proof.
  intros H. unfold Zrange. now replace (Z.to_nat (hi - lo)) with 0%nat by lia.
Qed.

Lemma Zrange_cons (lo hi : Z) : lo < hi -> Zrange lo hi = lo :: Zrange (lo + 1) hi.
Proof.
  intros H. unfold Zrange.
  replace (Z.to_nat (hi - lo)) with (S (Z.to_nat (hi - (lo + 1)))) by lia.
  cbn [seq map]. f_equal; [lia|].
  rewrite <- seq_shift, map_map. apply map_ext. intros i. lia.
Qed.

Lemma Zrange_In (lo hi t : Z) : In t (Zrange lo hi) <-> lo <= t < hi.
Proof.
  unfold Zrange. rewrite in_map_iff. split.
  - intros (i & <- & Hi). apply in_seq in Hi. lia.
  - intros H. exists (Z.to_nat (t - lo)). split; [lia|]. apply in_seq. lia.
Qed.

Lemma Zrange_length (lo hi : Z) : length (Zrange lo hi) = Z.to_nat (hi - lo).
Proof. unfold Zrange. now rewrite length_map, length_seq. Qed.

Lemma Zrange_nth_error (lo hi : Z) (i : nat) (t : Z) :
  nth_error (Zrange lo hi) i = Some t -> t = lo + Z.of_nat i /\ t < hi.
Proof.
  unfold Zrange. intros H.
  rewrite nth_error_map in H.
  destruct (nth_error (seq 0 (Z.to_nat (hi - lo))) i) as [j|] eqn:E; [|discriminate].
  injection H as <-.
  rewrite nth_error_seq in E.
  destruct (Nat.ltb_spec i (Z.to_nat (hi - lo))); [|discriminate].
  injection E as <-. lia.
Qed.

Lemma Zrange_NoDup (lo hi : Z) : NoDup (Zrange lo hi).
Proof.
  unfold Zrange. apply Injective_map_NoDup; [|apply seq_NoDup].
  intros i j H. lia.
Qed.

Lemma Zrange_filter_below (lo hi bound : Z) :
  filter (fun t => t <? bound) (Zrange lo hi) = Zrange lo (Z.min bound hi).
Proof.
  remember (Z.to_nat (hi - lo)) as len eqn:E.
  revert lo E. induction len as [|len IH]; intros lo E.
  - rewrite !Zrange_nil by lia. reflexivity.
  - rewrite (Zrange_cons lo hi) by lia. cbn [filter].
    rewrite IH by lia.
    destruct (Z.ltb_spec lo bound).
    + rewrite (Zrange_cons lo (Z.min bound hi)) by lia. reflexivity.
    + rewrite !Zrange_nil by lia. reflexivity.
Qed.

(** ** The persistent loop *)

Section LoopFacts.

Variables kM kN kK : Z.

Local Abbreviation grid_columns problem := (u32 (column (grid_shape_ kM kN problem))).

Lemma threadblock_offset_run (problem : GemmCoord) (t : Z) :
  grid_columns problem <> 0 ->
  threadblock_offset kM kN problem t =
  Ok {| row := int_mul (s32 (t / grid_columns problem)) kM;
        column := int_mul (s32 (t mod grid_columns problem)) kN |}.
Proof.
  intros Hc. unfold threadblock_offset, udiv, umod.
  destruct (Z.eqb_spec (grid_columns problem) 0); [contradiction|].
  reflexivity.
Qed.

Lemma tile_body_run (problem : GemmCoord) (e t : Z) :
  grid_columns problem <> 0 ->
  exists off,
    threadblock_offset kM kN problem t = Ok off /\
    tile_body kM kN kK problem e t =
    Ok (Tile t off (doesRowChange kN problem off || negb (isNextTile e t))
             (gemm_k_iterations kK problem)).
Proof.
  intros Hc. eexists. split; [now apply threadblock_offset_run|].
  unfold tile_body. rewrite threadblock_offset_run by assumption.
  cbn [bind].
  now destruct (doesRowChange _ _ _ || negb (isNextTile e t)).
Qed.

Lemma tile_body_index (problem : GemmCoord) (e t : Z) (ev : event) :
  tile_body kM kN kK problem e t = Ok ev -> tile_idx_of ev = Some t.
Proof.
  unfold tile_body.
  destruct (threadblock_offset kM kN problem t); cbn [bind]; try discriminate.
  intros H. injection H as <-. reflexivity.
Qed.

(** With fuel for every remaining index the loop runs to its bound and
    executes the body once for each index of [[t, e)], in order. *)
Lemma persistent_loop_run (problem : GemmCoord) (e : Z) :
  grid_columns problem <> 0 -> e < modulus ->
  forall (fuel : nat) (t : Z),
    0 <= t -> e - t <= Z.of_nat fuel ->
    exists evs,
      persistent_loop kM kN kK fuel problem e t = Ok evs /\
      Forall2 (fun i ev => tile_body kM kN kK problem e i = Ok ev)
              (Zrange t e) evs.
Proof.
  intros Hc He fuel.
  induction fuel as [|fuel IH]; intros t Ht Hfuel.
  - exists []. rewrite Zrange_nil by lia.
    split; [|constructor].
    cbn [persistent_loop]. destruct (Z.ltb_spec t e); [lia|reflexivity].
  - destruct (Z.ltb_spec t e) as [Hlt|Hge].
    + destruct (tile_body_run problem e t Hc) as (off & _ & Hbody).
      assert (Hnext : u32 (t + 1) = t + 1) by (apply u32_small; lia).
      destruct (IH (t + 1)) as (rest & Hrest & Hall); [lia|lia|].
      eexists. split.
      * cbn [persistent_loop].
        destruct (Z.ltb_spec t e); [|lia].
        rewrite Hbody, Hnext, Hrest. cbn [bind]. reflexivity.
      * rewrite Zrange_cons by lia. constructor; assumption.
    + exists []. rewrite Zrange_nil by lia.
      split; [|constructor].
      cbn [persistent_loop]. destruct (Z.ltb_spec t e); [lia|reflexivity].
Qed.

Lemma persistent_loop_done (fuel : nat) (problem : GemmCoord) (e t : Z) :
  e <= t -> persistent_loop kM kN kK fuel problem e t = Ok [].
Proof.
  intros H. destruct fuel; cbn [persistent_loop];
    destruct (Z.ltb_spec t e); try lia; reflexivity.
Qed.

(** Whatever the fuel, the loop never divides by zero on a grid with at
    least one column. *)
Lemma persistent_loop_no_fault (problem : GemmCoord) (e : Z) :
  grid_columns problem <> 0 ->
  forall (fuel : nat) (t : Z),
    persistent_loop kM kN kK fuel problem e t <> DivByZero.
Proof.
  intros Hc fuel.
  induction fuel as [|fuel IH]; intros t.
  - cbn [persistent_loop]. destruct (t <? e); discriminate.
  - cbn [persistent_loop]. destruct (t <? e); [|discriminate].
    destruct (tile_body_run problem e t Hc) as (off & _ & ->).
    cbn [bind]. specialize (IH (u32 (t + 1))).
    destruct (persistent_loop kM kN kK fuel problem e (u32 (t + 1)));
      cbn [bind]; [discriminate|contradiction|discriminate].
Qed.

Lemma Forall2_tile_indices (problem : GemmCoord) (e : Z) (ts : list Z) (evs : list event) :
  Forall2 (fun i ev => tile_body kM kN kK problem e i = Ok ev) ts evs ->
  tile_indices evs = ts.
Proof.
  induction 1 as [|t ev ts evs Hhd _ IH]; [reflexivity|].
  apply tile_body_index in Hhd. destruct ev; try discriminate.
  injection Hhd as ->. cbn [tile_indices]. now rewrite IH.
Qed.

Lemma Forall2_nth_error {A B : Type} (R : A -> B -> Prop) (xs : list A) (ys : list B) :
  Forall2 R xs ys ->
  forall (i : nat) (y : B), nth_error ys i = Some y ->
    exists x, nth_error xs i = Some x /\ R x y.
Proof.
  induction 1 as [|x y0 xs ys Hhd _ IH]; intros i y Hy.
  - destruct i; discriminate.
  - destruct i as [|i]; cbn in *.
    + injection Hy as <-. eauto.
    + eauto.
Qed.

End LoopFacts.

(** ** The static partition *)

Section ChunkFacts.

Variables kM kN : Z.
Variable problem : GemmCoord.
Variable ctx : launch.
Hypothesis Hrep : representable kM kN problem.
Hypothesis Hgrid : 1 <= gridDim_x ctx <= INT_MAX.
Hypothesis Hblock : 0 <= blockIdx_x ctx < gridDim_x ctx.

Local Abbreviation tiles := (tile_count_ (grid_shape_ kM kN problem)).
Local Abbreviation chunk := (ceil_div tiles (gridDim_x ctx)).

Lemma tile_count_exact :
  tiles = ceil_div (m problem) kM * ceil_div (n problem) kN /\
  0 <= tiles <= INT_MAX.
Proof.
  destruct Hrep as (HkM & HkN & Hm & Hn & Hprod).
  rewrite grid_shape_ceil in * by lia. cbn [row column] in *.
  pose proof (ceil_div_nonneg (m problem) kM HkM ltac:(lia)).
  pose proof (ceil_div_nonneg (n problem) kN HkN ltac:(lia)).
  unfold tile_count_. cbn [row column].
  pose proof INT_MAX_eq.
  rewrite int_mul_exact by nia.
  rewrite u32_small by (rewrite modulus_eq; nia).
  split; [reflexivity|nia].
Qed.

Lemma problem_chunk_ceil : problem_chunk kM kN problem ctx = chunk.
Proof.
  destruct tile_count_exact as (_ & HT).
  pose proof INT_MAX_eq. unfold problem_chunk.
  apply ceil_div_unique; [lia|].
  destruct (Z.eq_dec tiles 0) as [E|NE].
  - rewrite E. change (u32 (0 - 1)) with 4294967295.
    unfold u32. rewrite modulus_eq.
    replace (4294967295 + gridDim_x ctx)
      with (gridDim_x ctx - 1 + 1 * 4294967296) by lia.
    rewrite Z.mod_add by lia. rewrite Z.mod_small by lia.
    rewrite Z.div_small by lia. lia.
  - rewrite (u32_small (tiles - 1)) by (rewrite modulus_eq; lia).
    rewrite u32_small by (rewrite modulus_eq; lia).
    pose proof (ceil_div_add tiles (gridDim_x ctx) ltac:(lia)) as E.
    rewrite E. pose proof (ceil_div_bounds tiles (gridDim_x ctx) ltac:(lia)). lia.
Qed.

Lemma chunk_bounds :
  0 <= chunk /\ (chunk - 1) * gridDim_x ctx < tiles <= chunk * gridDim_x ctx \/
  tiles = 0 /\ chunk = 0.
Proof.
  destruct tile_count_exact as (_ & HT).
  destruct (Z.eq_dec tiles 0) as [E|NE].
  - right. rewrite E. split; [reflexivity|]. apply ceil_div_0. lia.
  - left. pose proof (ceil_div_bounds tiles (gridDim_x ctx) ltac:(lia)).
    pose proof (ceil_div_nonneg tiles (gridDim_x ctx) ltac:(lia) ltac:(lia)). lia.
Qed.

Lemma chunk_end_small :
  0 <= blockIdx_x ctx * chunk /\
  blockIdx_x ctx * chunk + chunk < modulus.
Proof.
  destruct tile_count_exact as (_ & HT).
  pose proof INT_MAX_eq. pose proof modulus_eq.
  destruct chunk_bounds as [(Hc0 & Hc1)|(_ & ->)]; nia.
Qed.

Lemma problem_chunk_start_eq :
  problem_chunk_start kM kN problem ctx = blockIdx_x ctx * chunk.
Proof.
  unfold problem_chunk_start. rewrite problem_chunk_ceil.
  apply u32_small. pose proof chunk_end_small.
  destruct chunk_bounds as [(Hc0 & _)|(_ & E)]; [lia|rewrite E in *; lia].
Qed.

Lemma problem_chunk_end_eq :
  problem_chunk_end kM kN problem ctx = blockIdx_x ctx * chunk + chunk.
Proof.
  unfold problem_chunk_end. rewrite problem_chunk_start_eq, problem_chunk_ceil.
  apply u32_small. pose proof chunk_end_small.
  destruct chunk_bounds as [(Hc0 & _)|(_ & E)]; [lia|rewrite E in *; lia].
Qed.

End ChunkFacts.

Section BlockFacts.

Variables kM kN kK : Z.
Variable problem : GemmCoord.
Variable ctx : launch.
Hypothesis Hrep : representable kM kN problem.
Hypothesis Hgrid : 1 <= gridDim_x ctx <= INT_MAX.
Hypothesis Hblock : 0 <= blockIdx_x ctx < gridDim_x ctx.

Local Abbreviation tiles := (tile_count_ (grid_shape_ kM kN problem)).
Local Abbreviation chunk := (ceil_div tiles (gridDim_x ctx)).
Local Abbreviation first := (blockIdx_x ctx * chunk).

Lemma grid_columns_nonzero :
  1 <= tiles -> u32 (column (grid_shape_ kM kN problem)) <> 0.
Proof.
  intros HT.
  destruct (tile_count_exact kM kN problem Hrep) as (E & _).
  destruct Hrep as (HkM & HkN & Hm & Hn & _).
  rewrite grid_column_u32 by lia. nia.
Qed.

(** Every block runs its loop to completion, over the indices
    [[first, first + chunk)]. *)
Lemma block_tiles_run (fuel : nat) :
  chunk <= Z.of_nat fuel ->
  exists evs,
    block_tiles kM kN kK fuel problem ctx = Ok evs /\
    Forall2 (fun i ev =>
               tile_body kM kN kK problem (first + chunk) i = Ok ev)
            (Zrange first (first + chunk)) evs.
Proof.
  intros Hfuel. unfold block_tiles.
  rewrite (problem_chunk_end_eq kM kN problem ctx Hrep Hgrid Hblock).
  rewrite (problem_chunk_start_eq kM kN problem ctx Hrep Hgrid Hblock).
  pose proof (chunk_end_small kM kN problem ctx Hrep Hgrid Hblock) as (Hlo & Hhi).
  destruct (chunk_bounds kM kN problem ctx Hrep Hgrid) as [(Hc0 & Hc1)|(HT & Hc)].
  - destruct (Z.eq_dec chunk 0) as [E0|NE0].
    + exists []. rewrite Zrange_nil by lia.
      split; [|constructor].
      apply persistent_loop_done. lia.
    + apply persistent_loop_run; try lia.
      apply grid_columns_nonzero. nia.
  - exists []. rewrite Zrange_nil by lia.
    split; [|constructor].
    apply persistent_loop_done. lia.
Qed.

Lemma block_tiles_indices (fuel : nat) :
  chunk <= Z.of_nat fuel ->
  exists evs,
    block_tiles kM kN kK fuel problem ctx = Ok evs /\
    tile_indices evs = Zrange first (first + chunk).
Proof.
  intros Hfuel. destruct (block_tiles_run fuel Hfuel) as (evs & Hrun & Hall).
  exists evs. split; [assumption|].
  eapply Forall2_tile_indices; eassumption.
Qed.

End BlockFacts.

(** On a representable problem with at least one tile, the column offset
    of every tile and the sum tested on line 447 are exact. *)
Lemma tile_column_exact (kM kN : Z) (problem : GemmCoord) (t : Z) :
  representable kM kN problem ->
  1 <= tile_count_ (grid_shape_ kM kN problem) ->
  0 <= t ->
  exists off,
    threadblock_offset kM kN problem t = Ok off /\
    column off = t mod ceil_div (n problem) kN * kN /\
    doesRowChange kN problem off = (column off + kN >=? n problem) /\
    tile_count_ (grid_shape_ kM kN problem)
      = ceil_div (m problem) kM * ceil_div (n problem) kN /\
    1 <= ceil_div (n problem) kN /\
    (ceil_div (n problem) kN - 1) * kN < n problem
      <= ceil_div (n problem) kN * kN.
Proof.
  intros Hrep HT Ht.
  destruct (tile_count_exact kM kN problem Hrep) as (ET & _).
  pose proof Hrep as (HkM & HkN & Hm & Hn & _).
  pose proof INT_MAX_eq as Hmax.
  pose proof (ceil_div_bounds (n problem) kN HkN) as Hb.
  pose proof (ceil_div_nonneg (m problem) kM HkM ltac:(lia)) as Hr0.
  pose proof (ceil_div_nonneg (n problem) kN HkN ltac:(lia)) as Hc0.
  assert (Hc1 : 1 <= ceil_div (n problem) kN) by nia.
  assert (Hu := grid_column_u32 kM kN HkN problem ltac:(lia) ltac:(lia)).
  pose proof (Z.mod_pos_bound t (ceil_div (n problem) kN) ltac:(lia)) as Hmb.
  eexists. split; [apply threadblock_offset_run; lia|].
  rewrite Hu. cbn [column].
  rewrite s32_small by nia. rewrite int_mul_exact by nia.
  split; [reflexivity|]. unfold doesRowChange. cbn [column].
  rewrite int_add_exact by nia.
  repeat split; try assumption; lia.
Qed.

(** ** Absence of division faults *)

Lemma bind_no_fault {A B : Type} (x : outcome A) (f : A -> outcome B) :
  x <> DivByZero -> (forall a, f a <> DivByZero) -> bind x f <> DivByZero.
Proof.
  intros Hx Hf. destruct x; cbn [bind]; [apply Hf|congruence|discriminate].
Qed.

Lemma strided_rows_no_fault (kM : Z) (fuel : nat) (blockDim : Z) :
  forall r, strided_rows kM fuel blockDim r <> DivByZero.
Proof.
  induction fuel as [|fuel IH]; intros r; cbn [strided_rows];
    destruct (r <? kM); try discriminate.
  apply bind_no_fault; [apply IH|discriminate].
Qed.

Section FaultFacts.

Variables kM kN kK : Z.
Variable problem : GemmCoord.
Hypothesis Hcols : u32 (column (grid_shape_ kM kN problem)) <> 0.

Lemma first_column_no_fault (ctx : launch) :
  first_column kM kN problem ctx <> DivByZero.
Proof.
  unfold first_column, umod.
  destruct (Z.eqb_spec (u32 (column (grid_shape_ kM kN problem))) 0);
    [contradiction|discriminate].
Qed.

Lemma prefetch_row_no_fault (ctx : launch) :
  prefetch_row kM kN problem ctx <> DivByZero.
Proof.
  unfold prefetch_row, udiv.
  destruct (Z.eqb_spec (u32 (column (grid_shape_ kM kN problem))) 0);
    [contradiction|discriminate].
Qed.

Lemma operator_call_no_fault (fuel : nat) (ctx : launch) :
  operator_call kM kN kK fuel problem ctx <> DivByZero.
Proof.
  unfold operator_call.
  apply bind_no_fault; [apply first_column_no_fault|]. intros c.
  apply bind_no_fault.
  { unfold init_reduced_store. destruct (c =? 0); [discriminate|].
    apply bind_no_fault; [apply strided_rows_no_fault|discriminate]. }
  intros init. apply bind_no_fault.
  { unfold prefetch_rownorm. destruct (c =? 0); [discriminate|].
    apply bind_no_fault; [apply prefetch_row_no_fault|]. intros r.
    apply bind_no_fault; [apply strided_rows_no_fault|discriminate]. }
  intros pre. apply bind_no_fault; [|discriminate].
  unfold block_tiles. now apply persistent_loop_no_fault.
Qed.

End FaultFacts.

(** ** The pre-loop staging *)

(** The strided loop of a thread terminates and visits only indices
    [row + j * blockDim] below [kM], the first of them [row] itself. *)
Lemma strided_rows_run (kM blockDim : Z) :
  1 <= blockDim -> kM + blockDim <= INT_MAX + 1 ->
  forall (fuel : nat) (r : Z),
    0 <= r -> kM - r <= Z.of_nat fuel ->
    exists rows,
      strided_rows kM fuel blockDim r = Ok rows /\
      Forall (fun x => x < kM /\ exists j, 0 <= j /\ x = r + j * blockDim) rows /\
      (r < kM -> hd_error rows = Some r).
Proof.
  intros Hbd Hsum. pose proof INT_MAX_eq as Hmax. pose proof modulus_eq as Hmod.
  induction fuel as [|fuel IH]; intros r Hr Hfuel.
  - exists []. cbn [strided_rows].
    destruct (Z.ltb_spec r kM); [lia|].
    split; [reflexivity|]. split; [constructor|lia].
  - cbn [strided_rows]. destruct (Z.ltb_spec r kM) as [Hlt|Hge].
    + assert (Hnext : s32 (u32 (u32 r + blockDim)) = r + blockDim).
      { rewrite (u32_small r) by lia. rewrite u32_small by lia.
        apply s32_small. lia. }
      rewrite Hnext.
      destruct (IH (r + blockDim)) as (rest & Hrest & Hall & _); [lia|lia|].
      rewrite Hrest. cbn [bind]. eexists. split; [reflexivity|].
      split; [|reflexivity].
      constructor.
      * split; [assumption|]. exists 0. lia.
      * eapply Forall_impl; [|exact Hall].
        intros x (Hx & j & Hj & ->). split; [assumption|].
        exists (j + 1). lia.
    + exists []. split; [reflexivity|]. split; [constructor|lia].
Qed.

Lemma gmem_reads_prefetch (row0 bound : Z) (rows : list Z) :
  gmem_reads (map (fun row_local =>
                     CpAsync row_local (row0 + row_local)
                             (row0 + row_local <? bound)) rows)
  = map (fun row_local => row0 + row_local)
        (filter (fun row_local => row0 + row_local <? bound) rows).
Proof.
  induction rows as [|x rows IH]; [reflexivity|].
  cbn [map gmem_reads filter].
  destruct (row0 + x <? bound); cbn [map]; now rewrite IH.
Qed.

(** ** Shared storage *)

Lemma align_up_ge (offset alignment : Z) :
  1 <= alignment -> offset <= SharedStorage.align_up offset alignment.
Proof.
  intros Ha. unfold SharedStorage.align_up.
  pose proof (Z.div_mod (offset + alignment - 1) alignment ltac:(lia)) as E.
  pose proof (Z.mod_pos_bound (offset + alignment - 1) alignment ltac:(lia)) as B.
  nia.
Qed.

Section StorageFacts.

Import SharedStorage.

Variables main_loop_t epilogue_t reduced_store_t rownorm_store_t : type_layout.
Hypothesis Hmain : well_formed_layout main_loop_t.
Hypothesis Hepi : well_formed_layout epilogue_t.
Hypothesis Hred : well_formed_layout reduced_store_t.
Hypothesis Hnorm : well_formed_layout rownorm_store_t.

Local Abbreviation offset_of :=
  (member_offset main_loop_t epilogue_t reduced_store_t rownorm_store_t).
Local Abbreviation size_in :=
  (member_size main_loop_t epilogue_t reduced_store_t rownorm_store_t).

(** The union ends at or before the first persistent member, which ends
    at or before the second. *)
Lemma union_before_stores (mb : member) :
  mb = main_loop \/ mb = epilogue ->
  offset_of mb = 0 /\
  size_in mb <= offset_of reduced_store /\
  offset_of reduced_store <= offset_of rownorm_store.
Proof.
  destruct Hmain as (Hms & Hma), Hepi as (Hes & Hea),
           Hred as (Hrs & Hra), Hnorm as (Hns & Hna).
  intros Hmb. cbn [member_offset].
  unfold offset_rownorm_store, offset_reduced_store, offset_kernel.
  pose proof (align_up_ge (0 + size_of (kernel_t main_loop_t epilogue_t))
                (align_of reduced_store_t) Hra) as H1.
  pose proof (align_up_ge
                (align_up (0 + size_of (kernel_t main_loop_t epilogue_t))
                          (align_of reduced_store_t) + size_of reduced_store_t)
                (align_of rownorm_store_t) Hna) as H2.
  assert (H3 : Z.max (size_of main_loop_t)
                     (size_of (epilogue_SharedStorage_t epilogue_t))
               <= size_of (kernel_t main_loop_t epilogue_t)).
  { unfold kernel_t. cbn [size_of align_of]. apply align_up_ge.
    cbn [epilogue_SharedStorage_t align_of]. lia. }
  assert (H4 : size_of epilogue_t
               <= size_of (epilogue_SharedStorage_t epilogue_t)).
  { cbn [epilogue_SharedStorage_t size_of]. now apply align_up_ge. }
  destruct Hmb as [-> | ->]; cbn [member_size];
    (split; [reflexivity|split; lia]).
Qed.

Lemma store_frame (s : smem) (addr v a : Z) :
  a <> addr -> store s addr v a = s a.
Proof.
  intros Hne. unfold store. destruct (Z.eqb_spec a addr); [contradiction|reflexivity].
Qed.

End StorageFacts.

(** ** Totality of the kernel model *)

Section RunFacts.

Variables kM kN kK : Z.
Variable problem : GemmCoord.
Variable ctx : launch.
Hypothesis Hrep : representable kM kN problem.
Hypothesis Hlaunch : launched ctx.
Hypothesis Hn : 1 <= n problem.
Hypothesis HkMmax : kM <= INT_MAX - 1024.

(** The commented-out call on line 444 and the test on line 445 agree:
    both compare the next index with the end of the block's chunk. *)
Lemma isNextTile_custom_next_tile (t : Z) :
  isNextTile (problem_chunk_end kM kN problem ctx) t
  = custom_next_tile_ kM kN problem ctx (u32 (t + 1)).
Proof.
  unfold isNextTile, custom_next_tile_.
  now destruct (u32 (t + 1) <? problem_chunk_end kM kN problem ctx).
Qed.

(** With fuel for the longer of its loops, a thread runs the kernel to its
    end. *)
Lemma operator_call_run (fuel : nat) :
  kM <= Z.of_nat fuel ->
  problem_chunk kM kN problem ctx <= Z.of_nat fuel ->
  exists evs, operator_call kM kN kK fuel problem ctx = Ok evs.
Proof.
  intros Hf1 Hf2.
  destruct Hlaunch as (Hgrid & Hblock & Hbd & Htid).
  pose proof Hrep as (HkM & HkN & Hm & Hn' & Hprod).
  pose proof INT_MAX_eq as Hmax.
  assert (Hcols : u32 (column (grid_shape_ kM kN problem)) <> 0).
  { rewrite grid_column_u32 by lia.
    pose proof (ceil_div_pos (n problem) kN HkN Hn). lia. }
  assert (Hs : s32 (threadIdx_x ctx) = threadIdx_x ctx) by (apply s32_small; lia).
  destruct (strided_rows_run kM (blockDim_x ctx) ltac:(lia) ltac:(lia)
              fuel (threadIdx_x ctx) ltac:(lia) ltac:(lia))
    as (rows & Hrows & _).
  rewrite (problem_chunk_ceil kM kN problem ctx Hrep Hgrid) in Hf2.
  destruct (block_tiles_run kM kN kK problem ctx Hrep Hgrid Hblock fuel Hf2)
    as (tiles & Htiles & _).
  unfold operator_call, first_column, umod.
  destruct (Z.eqb_spec (u32 (column (grid_shape_ kM kN problem))) 0);
    [contradiction|].
  cbn [bind].
  unfold init_reduced_store, prefetch_rownorm, prefetch_row, udiv.
  destruct (Z.eqb_spec (u32 (column (grid_shape_ kM kN problem))) 0);
    [contradiction|].
  rewrite Hs, Hrows, Htiles.
  match goal with |- context [if ?c then _ else _] => destruct c end;
    cbn [bind]; eexists; reflexivity.
Qed.

End RunFacts.

(** Block 2 of 4 on the 8 x 12 problem starts in the middle of the second
    row-band: thread 0 resets local row 0, stages row norm 4 and runs tiles
    4 and 5, flushing at tile 5. *)
Example operator_call_8x12 :
  operator_call 4 4 2 4 problem_8x12 (unit_launch 4 2) =
  Ok [InitReduced 0;
      CpAsync 0 4 true;
      Tile 4 {| row := 4; column := 4 |} false 1;
      Tile 5 {| row := 4; column := 8 |} true 1].
Proof. vm_compute. reflexivity. Qed.

(** The two members of the union do share their storage: a byte written
    through [main_loop] is read back through the epilogue member. *)
Example union_members_alias :
  SharedStorage.contents sample_main_loop_t sample_epilogue_t
    sample_reduced_store_t sample_rownorm_store_t SharedStorage.epilogue
    (SharedStorage.store (fun _ => 0) 3 255)
  <> SharedStorage.contents sample_main_loop_t sample_epilogue_t
       sample_reduced_store_t sample_rownorm_store_t SharedStorage.epilogue
       (fun _ => 0).
Proof. vm_compute. discriminate. Qed.

(** * The claims *)

(** C10. [Params::update] copies [threadblock_count], [output_op], the five
    buffer pointers, the four strides and [problem_size] from its argument
    and keeps the previous [problem_visitor.problem_count]; the constructor
    [Params(Arguments, ...)] takes [problem_visitor.problem_count] from its
    argument. *)
Theorem update_keeps_problem_count
    (O A B C T : Type)
    (mkA : Z -> A) (mkB : Z -> B) (mkC : Z -> C) (mkT : Z -> O -> T)
    (p : Params O A B C T) (args : Arguments O) :
  let p' := update p args in
  threadblock_count _ _ _ _ _ p' = a_threadblock_count _ args /\
  output_op _ _ _ _ _ p' = a_output_op _ args /\
  ptr_A _ _ _ _ _ p' = a_ptr_A _ args /\
  ptr_B _ _ _ _ _ p' = a_ptr_B _ args /\
  ptr_C _ _ _ _ _ p' = a_ptr_C _ args /\
  ptr_Vector _ _ _ _ _ p' = a_ptr_Vector _ args /\
  ptr_Tensor _ _ _ _ _ p' = a_ptr_Tensor _ args /\
  lda _ _ _ _ _ p' = a_lda _ args /\
  ldb _ _ _ _ _ p' = a_ldb _ args /\
  ldc _ _ _ _ _ p' = a_ldc _ args /\
  ldt _ _ _ _ _ p' = a_ldt _ args /\
  problem_size _ _ _ _ _ p' = a_problem_sizes _ args /\
  problem_count (problem_visitor _ _ _ _ _ p') =
    problem_count (problem_visitor _ _ _ _ _ p) /\
  problem_count (problem_visitor _ _ _ _ _
                   (Params_of_Arguments mkA mkB mkC mkT args)) =
    problem_count (a_problem_visitor _ args).
Proof.
  cbv zeta. repeat split.
Qed.

(** C5.  The capability check accepts every configuration, whatever the
    alignment of its pointers and strides: evaluated on arguments with odd
    addresses and odd leading dimensions, and in general. *)
Theorem can_implement_accepts_misaligned :
  can_implement misaligned_arguments = kSuccess /\
  (forall (O : Type) (args : Arguments O), can_implement args = kSuccess) /\
  (forall problem : GemmCoord, can_implement_problem problem = kSuccess).
Proof. repeat split. Qed.

(** C9.  With no output tile ([M = 0] or [N = 0]) the tile count is 0, the
    unsigned sum [tile_count - 1 + gridDim.x] wraps to [gridDim.x - 1], the
    chunk is 0, every block's chunk end is 0 and its persistent loop runs
    no iteration. *)
Theorem empty_problem_no_iteration
    (kM kN kK : Z) (problem : GemmCoord) (ctx : launch) :
  1 <= kM -> 1 <= kN ->
  m problem = 0 \/ n problem = 0 ->
  1 <= gridDim_x ctx < modulus ->
  tile_count_ (grid_shape_ kM kN problem) = 0 /\
  u32 (u32 (tile_count_ (grid_shape_ kM kN problem) - 1) + gridDim_x ctx)
    = gridDim_x ctx - 1 /\
  problem_chunk kM kN problem ctx = (gridDim_x ctx - 1) / gridDim_x ctx /\
  problem_chunk kM kN problem ctx = 0 /\
  problem_chunk_end kM kN problem ctx = 0 /\
  forall fuel, block_tiles kM kN kK fuel problem ctx = Ok [].
Proof.
  intros HkM HkN Hzero Hg.
  assert (HT : tile_count_ (grid_shape_ kM kN problem) = 0).
  { unfold tile_count_, grid_shape_. cbn [row column].
    destruct Hzero as [-> | ->].
    - rewrite padded_zero_extent by assumption. reflexivity.
    - rewrite padded_zero_extent by assumption.
      unfold int_mul. now rewrite Z.mul_0_r. }
  assert (Hwrap : u32 (u32 (tile_count_ (grid_shape_ kM kN problem) - 1)
                       + gridDim_x ctx) = gridDim_x ctx - 1).
  { rewrite HT. change (u32 (0 - 1)) with 4294967295.
    unfold u32. rewrite modulus_eq in *.
    replace (4294967295 + gridDim_x ctx)
      with (gridDim_x ctx - 1 + 1 * 4294967296) by lia.
    rewrite Z.mod_add by lia. apply Z.mod_small. lia. }
  assert (Hchunk : problem_chunk kM kN problem ctx = 0).
  { unfold problem_chunk. rewrite Hwrap. apply Z.div_small. lia. }
  assert (Hend : problem_chunk_end kM kN problem ctx = 0).
  { unfold problem_chunk_end, problem_chunk_start. rewrite Hchunk.
    now rewrite Z.mul_0_r. }
  repeat split; try assumption.
  - unfold problem_chunk. now rewrite Hwrap.
  - intros fuel. unfold block_tiles. apply persistent_loop_done.
    rewrite Hend. apply u32_range.
Qed.

Lemma empty_problem_no_iteration_witness :
  problem_chunk_end 4 4 {| m := 0; n := 8; k := 2 |} (unit_launch 3 2) = 0 /\
  block_tiles 4 4 2 0 {| m := 0; n := 8; k := 2 |} (unit_launch 3 2) = Ok [].
Proof.
  destruct (empty_problem_no_iteration 4 4 2 {| m := 0; n := 8; k := 2 |}
              (unit_launch 3 2))
    as (_ & _ & _ & _ & Hend & Hloop).
  - closed_arith.
  - closed_arith.
  - left. reflexivity.
  - closed_arith.
  - split; [exact Hend|exact (Hloop 0%nat)].
Defined.

(** C7, as the kernel implements it.  For [M >= 1] and [N >= 1] whose
    padded extents [M - 1 + kM] and [N - 1 + kN] are representable in
    [int], the tile grid is [(ceil(M/kM), ceil(N/kN))], both components at
    least 1, and no division or remainder by the number of grid columns
    faults: neither the pre-loop column and row computations, nor the tile
    offset of any tile, nor the kernel as a whole. *)
Theorem grid_shape_positive
    (kM kN kK : Z) (problem : GemmCoord) :
  1 <= kM -> 1 <= kN ->
  1 <= m problem -> m problem - 1 + kM <= INT_MAX ->
  1 <= n problem -> n problem - 1 + kN <= INT_MAX ->
  grid_shape_ kM kN problem =
    {| row := ceil_div (m problem) kM; column := ceil_div (n problem) kN |} /\
  1 <= row (grid_shape_ kM kN problem) /\
  1 <= column (grid_shape_ kM kN problem) /\
  u32 (column (grid_shape_ kM kN problem)) <> 0 /\
  (forall ctx, exists c, first_column kM kN problem ctx = Ok c) /\
  (forall ctx, exists r, prefetch_row kM kN problem ctx = Ok r) /\
  (forall tile_idx,
     exists off, threadblock_offset kM kN problem tile_idx = Ok off) /\
  (forall fuel ctx, operator_call kM kN kK fuel problem ctx <> DivByZero).
Proof.
  intros HkM HkN Hm Hm' Hn Hn'.
  assert (Hshape := grid_shape_ceil kM kN HkM HkN problem
                      ltac:(lia) Hm' ltac:(lia) Hn').
  assert (Hrow := ceil_div_pos (m problem) kM HkM Hm).
  assert (Hcol := ceil_div_pos (n problem) kN HkN ltac:(lia)).
  assert (Hu : u32 (column (grid_shape_ kM kN problem)) <> 0).
  { rewrite grid_column_u32 by lia. lia. }
  split; [exact Hshape|].
  split; [rewrite Hshape; exact Hrow|].
  split; [rewrite Hshape; exact Hcol|].
  split; [exact Hu|].
  split; [intros ctx|split; [intros ctx|split; [intros t|intros fuel ctx]]].
  - unfold first_column, umod.
    destruct (Z.eqb_spec (u32 (column (grid_shape_ kM kN problem))) 0);
      [contradiction|]. cbn [bind]. eexists. reflexivity.
  - unfold prefetch_row, udiv.
    destruct (Z.eqb_spec (u32 (column (grid_shape_ kM kN problem))) 0);
      [contradiction|]. cbn [bind]. eexists. reflexivity.
  - eexists. now apply threadblock_offset_run.
  - now apply operator_call_no_fault.
Qed.

Lemma grid_shape_positive_witness :
  grid_shape_ 4 4 {| m := 1; n := 1; k := 2 |} = {| row := 1; column := 1 |} /\
  operator_call 4 4 2 4 {| m := 1; n := 1; k := 2 |} (unit_launch 1 0)
    <> DivByZero.
Proof.
  destruct (grid_shape_positive 4 4 2 {| m := 1; n := 1; k := 2 |})
    as (Hshape & _ & _ & _ & _ & _ & _ & Hcall).
  - closed_arith.
  - closed_arith.
  - closed_arith.
  - closed_arith.
  - closed_arith.
  - closed_arith.
  - split; [rewrite Hshape; reflexivity|apply Hcall].
Defined.

(** C7 as stated fails where a padded extent overflows [int].  With
    [M = INT_MAX] and [kM = 4] the sum [M - 1 + kM] wraps and the grid has
    a negative number of rows instead of [ceil(M/kM)]; with [N = kN =
    INT_MAX] the sum [N - 1 + kN] wraps to [-3], the grid has zero columns
    and the remainder of line 407 divides by zero. *)
Lemma grid_shape_overflow :
  grid_shape_ 4 4 {| m := 2147483647; n := 1; k := 1 |}
    = {| row := -536870911; column := 1 |} /\
  ceil_div 2147483647 4 = 536870912 /\
  ~ 1 <= row (grid_shape_ 4 4 {| m := 2147483647; n := 1; k := 1 |}) /\
  column (grid_shape_ 1 2147483647 {| m := 1; n := 2147483647; k := 1 |}) = 0 /\
  first_column 1 2147483647 {| m := 1; n := 2147483647; k := 1 |}
    (unit_launch 1 0) = DivByZero.
Proof.
  repeat split; try reflexivity. vm_compute. intros H. now apply H.
Qed.

(** C1, as the kernel implements it.  On a problem whose padded extents
    and tile count are representable in [int], with [chunk_size =
    ceil(total_tiles / gridDim.x)], block [blockIdx.x] iterates the
    contiguous range [[blockIdx.x*chunk_size, blockIdx.x*chunk_size +
    chunk_size)], whose upper end is not clamped to [total_tiles].  The
    indices of that range that lie in the tile grid are the range of the
    specification; a block whose first index is at or beyond [total_tiles]
    owns no tile of the grid, and still performs [chunk_size] iterations,
    all on indices at or beyond [total_tiles]. *)
Theorem block_tile_range
    (kM kN kK : Z) (problem : GemmCoord) (ctx : launch) (fuel : nat) :
  representable kM kN problem ->
  1 <= gridDim_x ctx <= INT_MAX ->
  0 <= blockIdx_x ctx < gridDim_x ctx ->
  let total_tiles := tile_count_ (grid_shape_ kM kN problem) in
  let chunk_size := ceil_div total_tiles (gridDim_x ctx) in
  let first := blockIdx_x ctx * chunk_size in
  chunk_size <= Z.of_nat fuel ->
  problem_chunk kM kN problem ctx = chunk_size /\
  exists evs,
    block_tiles kM kN kK fuel problem ctx = Ok evs /\
    tile_indices evs = Zrange first (first + chunk_size) /\
    filter (fun t => t <? total_tiles) (tile_indices evs)
      = spec_tile_range total_tiles (gridDim_x ctx) (blockIdx_x ctx) /\
    (total_tiles <= first ->
     spec_tile_range total_tiles (gridDim_x ctx) (blockIdx_x ctx) = [] /\
     length (tile_indices evs) = Z.to_nat chunk_size /\
     Forall (fun t => total_tiles <= t) (tile_indices evs)).
Proof.
  intros Hrep Hgrid Hblock total_tiles chunk_size first Hfuel.
  split; [now apply problem_chunk_ceil|].
  destruct (block_tiles_indices kM kN kK problem ctx Hrep Hgrid Hblock fuel Hfuel)
    as (evs & Hrun & Hidx).
  fold total_tiles chunk_size first in Hidx.
  exists evs. split; [exact Hrun|]. split; [exact Hidx|].
  rewrite Hidx. split.
  - rewrite Zrange_filter_below. reflexivity.
  - intros Hout. unfold spec_tile_range. fold chunk_size first.
    split; [apply Zrange_nil; lia|].
    split; [rewrite Zrange_length; f_equal; lia|].
    apply Forall_forall. intros t Ht. apply Zrange_In in Ht. lia.
Qed.

Lemma block_tile_range_witness :
  exists evs,
    block_tiles 4 4 2 2 problem_8x8 (unit_launch 2 1) = Ok evs /\
    tile_indices evs = Zrange 2 4.
Proof.
  destruct (block_tile_range 4 4 2 problem_8x8 (unit_launch 2 1) 2)
    as (_ & evs & Hrun & Hidx & _).
  - closed_arith.
  - closed_arith.
  - closed_arith.
  - closed_arith.
  - exists evs. split; [exact Hrun|exact Hidx].
Defined.

(** C1 as stated fails: with 4 tiles and 3 blocks the chunk size is 2 and
    block 2 starts at index 4, where the specification assigns the empty
    range; the kernel iterates over indices 4 and 5. *)
Lemma block_tile_range_unclamped :
  tile_count_ (grid_shape_ 4 4 problem_8x8) = 4 /\
  spec_tile_range 4 3 2 = [] /\
  exists evs,
    block_tiles 4 4 2 2 problem_8x8 (unit_launch 3 2) = Ok evs /\
    tile_indices evs = [4; 5] /\
    tile_indices evs <> spec_tile_range 4 3 2.
Proof.
  split; [reflexivity|]. split; [reflexivity|].
  eexists. split; [vm_compute; reflexivity|].
  split; [reflexivity|discriminate].
Qed.

(** C3, as the kernel implements it.  On a problem whose padded extents
    and tile count are representable in [int], every block runs its loop
    to completion without repeating an index, and every tile index of
    [[0, total_tiles)] is executed by exactly one block.  (Blocks may in
    addition iterate over indices at or beyond [total_tiles].) *)
Theorem partition_covers_once
    (kM kN kK : Z) (problem : GemmCoord) (g : Z) (fuel : nat) :
  representable kM kN problem ->
  1 <= g <= INT_MAX ->
  ceil_div (tile_count_ (grid_shape_ kM kN problem)) g <= Z.of_nat fuel ->
  (forall b, 0 <= b < g ->
     exists evs,
       block_tiles kM kN kK fuel problem (unit_launch g b) = Ok evs /\
       NoDup (tile_indices evs)) /\
  (forall t, 0 <= t < tile_count_ (grid_shape_ kM kN problem) ->
     exists b, 0 <= b < g /\
       processes kM kN kK fuel problem g b t /\
       forall b', 0 <= b' < g ->
         processes kM kN kK fuel problem g b' t -> b' = b).
Proof.
  intros Hrep Hg Hfuel.
  set (total_tiles := tile_count_ (grid_shape_ kM kN problem)) in *.
  set (chunk_size := ceil_div total_tiles g) in *.
  assert (Hrun : forall b, 0 <= b < g ->
            exists evs,
              block_tiles kM kN kK fuel problem (unit_launch g b) = Ok evs /\
              tile_indices evs = Zrange (b * chunk_size) (b * chunk_size + chunk_size)).
  { intros b Hb.
    apply (block_tiles_indices kM kN kK problem (unit_launch g b)); assumption. }
  split.
  - intros b Hb. destruct (Hrun b Hb) as (evs & Hok & Hidx).
    exists evs. split; [assumption|]. rewrite Hidx. apply Zrange_NoDup.
  - intros t Ht.
    pose proof (ceil_div_bounds total_tiles g ltac:(lia)) as Hc.
    fold chunk_size in Hc.
    assert (Hpos : 1 <= chunk_size) by nia.
    pose proof (Z.div_mod t chunk_size ltac:(lia)) as Hdm.
    pose proof (Z.mod_pos_bound t chunk_size ltac:(lia)) as Hmb.
    assert (Hb : 0 <= t / chunk_size < g).
    { split; [apply Z.div_pos; lia|]. apply Z.div_lt_upper_bound; nia. }
    exists (t / chunk_size). split; [exact Hb|]. split.
    + destruct (Hrun _ Hb) as (evs & Hok & Hidx).
      exists evs. split; [assumption|]. rewrite Hidx. apply Zrange_In. nia.
    + intros b' Hb' (evs' & Hok' & Hin').
      destruct (Hrun _ Hb') as (evs & Hok & Hidx).
      rewrite Hok in Hok'. injection Hok' as <-.
      rewrite Hidx in Hin'. apply Zrange_In in Hin'. nia.
Qed.

Lemma partition_covers_once_witness :
  exists b, 0 <= b < 3 /\ processes 4 4 2 2 problem_8x8 3 b 3.
Proof.
  destruct (partition_covers_once 4 4 2 problem_8x8 3 2) as (_ & Hcover).
  - closed_arith.
  - closed_arith.
  - closed_arith.
  - destruct (Hcover 3) as (b & Hb & Hp & _).
    + closed_arith.
    + exists b. split; [exact Hb|exact Hp].
Defined.

(** C3 as stated fails: with 4 tiles and 3 blocks, block 2 executes tile
    index 4, which is outside [[0, 4)]. *)
Lemma partition_leaves_tile_space :
  tile_count_ (grid_shape_ 4 4 problem_8x8) = 4 /\
  processes 4 4 2 2 problem_8x8 3 2 4 /\
  ~ (forall b t, 0 <= b < 3 -> processes 4 4 2 2 problem_8x8 3 b t ->
       0 <= t < tile_count_ (grid_shape_ 4 4 problem_8x8)).
Proof.
  assert (Hp : processes 4 4 2 2 problem_8x8 3 2 4).
  { eexists. split; [vm_compute; reflexivity|]. cbn. left. reflexivity. }
  split; [reflexivity|]. split; [exact Hp|].
  intros H. specialize (H 2 4 ltac:(lia) Hp).
  change (tile_count_ (grid_shape_ 4 4 problem_8x8)) with 4 in H. lia.
Qed.

(** C8, as the kernel implements it.  For a tile index whose row offset
    is representable in [int] (every tile of the grid is one), the offset
    of tile [tile_idx] is that of a row-major sweep of the tile grid: row
    [(tile_idx / grid_columns) * kM], column
    [(tile_idx % grid_columns) * kN].  The row offset changes from
    [tile_idx] to [tile_idx + 1] exactly when the reducer's test
    [doesRowChange] holds at [tile_idx], that is exactly when [tile_idx] is
    the last column-tile of its row-band. *)
Theorem row_major_sweep
    (kM kN : Z) (problem : GemmCoord) (tile_idx : Z) :
  1 <= kM -> 1 <= kN ->
  1 <= n problem -> n problem - 1 + kN <= INT_MAX ->
  0 <= tile_idx -> tile_idx + 1 <= INT_MAX ->
  let grid_columns := column (grid_shape_ kM kN problem) in
  (tile_idx + 1) / grid_columns * kM <= INT_MAX ->
  exists off off',
    threadblock_offset kM kN problem tile_idx = Ok off /\
    threadblock_offset kM kN problem (tile_idx + 1) = Ok off' /\
    row off = tile_idx / grid_columns * kM /\
    column off = tile_idx mod grid_columns * kN /\
    (row off' <> row off <-> doesRowChange kN problem off = true) /\
    (doesRowChange kN problem off = true <->
       tile_idx mod grid_columns = grid_columns - 1).
Proof.
  intros HkM HkN Hn Hn' Ht Ht1 grid_columns Hrow1.
  pose proof INT_MAX_eq as Hmax.
  assert (Hgc : grid_columns = ceil_div (n problem) kN)
    by (apply grid_column_exact; lia).
  assert (Hu : u32 (column (grid_shape_ kM kN problem)) = grid_columns).
  { rewrite grid_column_u32 by lia. now rewrite Hgc. }
  pose proof (ceil_div_bounds (n problem) kN HkN) as Hb. rewrite <- Hgc in Hb.
  assert (Hpos : 1 <= grid_columns) by nia.
  assert (Hnz : u32 (column (grid_shape_ kM kN problem)) <> 0) by lia.
  pose proof (Z.div_mod tile_idx grid_columns ltac:(lia)) as Hdm.
  pose proof (Z.mod_pos_bound tile_idx grid_columns ltac:(lia)) as Hmb.
  pose proof (Z.div_mod (tile_idx + 1) grid_columns ltac:(lia)) as Hdm'.
  pose proof (Z.mod_pos_bound (tile_idx + 1) grid_columns ltac:(lia)) as Hmb'.
  assert (Hq : 0 <= tile_idx / grid_columns <= tile_idx).
  { split; [apply Z.div_pos; lia|]. apply Z.div_le_upper_bound; nia. }
  assert (Hq' : 0 <= (tile_idx + 1) / grid_columns <= tile_idx + 1).
  { split; [apply Z.div_pos; lia|]. apply Z.div_le_upper_bound; nia. }
  assert (Hmono : tile_idx / grid_columns <= (tile_idx + 1) / grid_columns)
    by (apply Z.div_le_mono; lia).
  do 2 eexists.
  split; [apply threadblock_offset_run; exact Hnz|].
  split; [apply threadblock_offset_run; exact Hnz|].
  rewrite Hu. cbn [row column].
  rewrite !s32_small by lia.
  rewrite !int_mul_exact by nia.
  split; [reflexivity|]. split; [reflexivity|].
  unfold doesRowChange. cbn [column].
  rewrite int_add_exact by nia.
  rewrite Z.geb_le.
  assert (Hlast : n problem <= tile_idx mod grid_columns * kN + kN <->
                  tile_idx mod grid_columns = grid_columns - 1) by (split; nia).
  split; [|exact Hlast].
  rewrite Hlast. split.
  - intros Hrow.
    destruct (Z.eq_dec (tile_idx mod grid_columns) (grid_columns - 1)) as [E|NE];
      [exact E|].
    exfalso. apply Hrow. f_equal.
    symmetry. apply (Z.div_unique _ _ _ (tile_idx mod grid_columns + 1)); lia.
  - intros E Hrow.
    assert (Hq1 : (tile_idx + 1) / grid_columns = tile_idx / grid_columns + 1).
    { symmetry. apply (Z.div_unique _ _ _ 0); lia. }
    rewrite Hq1 in Hrow. nia.
Qed.

Lemma row_major_sweep_witness :
  exists off,
    threadblock_offset 4 4 problem_8x8 1 = Ok off /\
    row off = 0 /\ column off = 4 /\
    doesRowChange 4 problem_8x8 off = true.
Proof.
  destruct (row_major_sweep 4 4 problem_8x8 1)
    as (off & off' & Hoff & _ & Hrow & Hcol & _ & Hlast).
  - closed_arith.
  - closed_arith.
  - closed_arith.
  - closed_arith.
  - closed_arith.
  - closed_arith.
  - closed_arith.
  - exists off. split; [exact Hoff|].
    split; [rewrite Hrow; reflexivity|].
    split; [rewrite Hcol; reflexivity|].
    apply Hlast. reflexivity.
Defined.

(** C8 as stated fails for tile indices whose row offset overflows [int]:
    on the 8 x 8 problem with 4 x 4 tiles (2 grid columns), tile index
    1200000000 has [(tile_idx / grid_columns) * kM = 2400000000], and the
    kernel's [int] product is [-1894967296]. *)
Lemma row_major_sweep_overflow :
  column (grid_shape_ 4 4 problem_8x8) = 2 /\
  1200000000 / 2 * 4 = 2400000000 /\
  threadblock_offset 4 4 problem_8x8 1200000000
    = Ok {| row := -1894967296; column := 0 |} /\
  ~ (exists off,
       threadblock_offset 4 4 problem_8x8 1200000000 = Ok off /\
       row off = 1200000000 / column (grid_shape_ 4 4 problem_8x8) * 4).
Proof.
  split; [reflexivity|]. split; [reflexivity|]. split; [reflexivity|].
  intros (off & Hoff & Hrow).
  change (threadblock_offset 4 4 problem_8x8 1200000000)
    with (Ok {| row := -1894967296; column := 0 |}) in Hoff.
  injection Hoff as <-. vm_compute in Hrow. discriminate.
Qed.

(** C2, as the kernel implements it.  On a problem whose padded extents
    and tile count are representable in [int], every block runs its loop
    to completion, and the tile at position [i] of its range is started
    with [do_gmem_reduce = true] exactly when its column offset plus [kN]
    reaches [N] or it is the last tile of the block's loop; for a tile of
    the grid that is also exactly when its column offset plus [kN] reaches
    [N] or it is the last tile of the block's range clamped to the tile
    count.  For [M = N = 8] with 4 x 4 tiles and two blocks of two tiles
    each, the flag is false at the first and true at the second tile of
    each row-band. *)
Theorem flush_rule :
  (forall (kM kN kK : Z) (problem : GemmCoord) (ctx : launch) (fuel : nat),
     representable kM kN problem ->
     1 <= gridDim_x ctx <= INT_MAX ->
     0 <= blockIdx_x ctx < gridDim_x ctx ->
     problem_chunk kM kN problem ctx <= Z.of_nat fuel ->
     exists evs,
       block_tiles kM kN kK fuel problem ctx = Ok evs /\
       forall (i : nat) (ev : event),
         nth_error evs i = Some ev ->
         exists off flush iters,
           ev = Tile (problem_chunk_start kM kN problem ctx + Z.of_nat i)
                     off flush iters /\
           threadblock_offset kM kN problem
             (problem_chunk_start kM kN problem ctx + Z.of_nat i) = Ok off /\
           (flush = true <->
              column off + kN >= n problem \/ S i = length evs) /\
           (problem_chunk_start kM kN problem ctx + Z.of_nat i
              < tile_count_ (grid_shape_ kM kN problem) ->
            (flush = true <->
               column off + kN >= n problem \/
               problem_chunk_start kM kN problem ctx + Z.of_nat i + 1
               = Z.min (tile_count_ (grid_shape_ kM kN problem))
                       (problem_chunk_end kM kN problem ctx)))) /\
  block_tiles 4 4 2 2 problem_8x8 (unit_launch 2 0) =
    Ok [Tile 0 {| row := 0; column := 0 |} false 1;
        Tile 1 {| row := 0; column := 4 |} true 1] /\
  block_tiles 4 4 2 2 problem_8x8 (unit_launch 2 1) =
    Ok [Tile 2 {| row := 4; column := 0 |} false 1;
        Tile 3 {| row := 4; column := 4 |} true 1].
Proof.
  split; [|split; vm_compute; reflexivity].
  intros kM kN kK problem ctx fuel Hrep Hgrid Hblock Hfuel.
  rewrite (problem_chunk_ceil kM kN problem ctx Hrep Hgrid) in Hfuel.
  rewrite (problem_chunk_start_eq kM kN problem ctx Hrep Hgrid Hblock).
  rewrite (problem_chunk_end_eq kM kN problem ctx Hrep Hgrid Hblock).
  set (total := tile_count_ (grid_shape_ kM kN problem)) in *.
  set (chunk := ceil_div total (gridDim_x ctx)) in *.
  set (first := blockIdx_x ctx * chunk).
  destruct (block_tiles_run kM kN kK problem ctx Hrep Hgrid Hblock fuel Hfuel)
    as (evs & Hrun & Hall).
  fold total chunk first in Hall.
  exists evs. split; [exact Hrun|].
  intros i ev Hev.
  destruct (Forall2_nth_error _ _ _ Hall i ev Hev) as (t & Ht & Hbody).
  apply Zrange_nth_error in Ht. destruct Ht as (-> & Hlt).
  assert (Hlen : length evs = Z.to_nat chunk).
  { rewrite <- (Forall2_length Hall), Zrange_length. f_equal. lia. }
  pose proof (chunk_end_small kM kN problem ctx Hrep Hgrid Hblock) as (Hlo & Hhi).
  fold total chunk first in Hlo, Hhi.
  assert (HT : 1 <= total).
  { destruct (chunk_bounds kM kN problem ctx Hrep Hgrid) as [(_ & Hc1)|(_ & Hc0)];
      [fold total chunk in Hc1|fold total chunk in Hc0]; nia. }
  assert (Hcols : u32 (column (grid_shape_ kM kN problem)) <> 0)
    by (apply grid_columns_nonzero; assumption).
  destruct (tile_column_exact kM kN problem (first + Z.of_nat i) Hrep HT
              ltac:(lia)) as (off & Hoff & Hcol & Hdrc & ET & Hc1 & Hcb).
  fold total in ET.
  destruct (tile_body_run kM kN kK problem (first + chunk) (first + Z.of_nat i) Hcols)
    as (off' & Hoff' & Hrun').
  rewrite Hoff in Hoff'. injection Hoff' as <-.
  rewrite Hrun' in Hbody. injection Hbody as <-.
  do 3 eexists. split; [reflexivity|]. split; [exact Hoff|].
  rewrite Hdrc. unfold isNextTile.
  rewrite u32_small by lia.
  rewrite orb_true_iff, negb_true_iff, Z.geb_le, Z.ltb_ge, Hlen.
  split; [split; (intros [H|H]; [left|right]); lia|].
  intros Hin.
  assert (Hlastcol : first + Z.of_nat i + 1 = total ->
                     n problem <= column off + kN).
  { intros E.
    pose proof (ceil_div_bounds (m problem) kM) as Hrb.
    assert (Hmod : (first + Z.of_nat i) mod ceil_div (n problem) kN
                   = ceil_div (n problem) kN - 1).
    { symmetry.
      apply (Z.mod_unique _ _ (ceil_div (m problem) kM - 1)); [lia|].
      rewrite ET in E. lia. }
    rewrite Hcol, Hmod. lia. }
  split.
  - intros [H|H]; [left; lia|]. right. lia.
  - intros [H|H]; [left; lia|].
    destruct (Z.min_spec total (first + chunk)) as [(Hlt' & E)|(Hle' & E)];
      rewrite E in H; [left; specialize (Hlastcol H); lia|right; lia].
Qed.

Lemma flush_rule_witness :
  exists evs,
    block_tiles 4 4 2 2 problem_8x8 (unit_launch 2 1) = Ok evs /\
    forall (i : nat) (ev : event),
      nth_error evs i = Some ev ->
      exists off flush iters,
        ev = Tile (problem_chunk_start 4 4 problem_8x8 (unit_launch 2 1) + Z.of_nat i)
                  off flush iters /\
        (flush = true <-> column off + 4 >= n problem_8x8 \/ S i = length evs).
Proof.
  destruct (proj1 flush_rule 4 4 2 problem_8x8 (unit_launch 2 1) 2%nat)
    as (evs & Hrun & Hall).
  - closed_arith.
  - closed_arith.
  - closed_arith.
  - closed_arith.
  - exists evs. split; [exact Hrun|].
    intros i ev Hev.
    destruct (Hall i ev Hev) as (off & flush & iters & E & _ & Hiff & _).
    exists off, flush, iters. split; [exact E|exact Hiff].
Defined.

(** C2 as stated fails where the padded extent [N - 1 + kN] overflows
    [int].  With [M = 1], [N = INT_MAX], 1 x 2 tiles and a single block,
    tile index 1073741823 lies inside the block's range and is not its
    last tile; its column offset is 2147483646, so the offset plus [kN]
    reaches [N], yet the [int] sum of line 447 wraps and
    [do_gmem_reduce] is false. *)
Lemma flush_rule_overflow :
  problem_chunk_start 1 2 {| m := 1; n := 2147483647; k := 1 |} (unit_launch 1 0)
    = 0 /\
  problem_chunk_end 1 2 {| m := 1; n := 2147483647; k := 1 |} (unit_launch 1 0)
    = 3221225472 /\
  tile_body 1 2 1 {| m := 1; n := 2147483647; k := 1 |} 3221225472 1073741823
    = Ok (Tile 1073741823 {| row := 0; column := 2147483646 |} false 1) /\
  2147483646 + 2 >= 2147483647 /\
  0 <= 1073741823 /\ 1073741823 + 1 < 3221225472.
Proof. repeat split; vm_compute; reflexivity || (intros; discriminate). Qed.


(** C4, as the kernel implements it.  For a block whose first row offset
    [row0 = (first / grid_columns) * kM] leaves the rows of one tile
    representable in [int] ([row0 + kM - 1 <= INT_MAX], which holds for
    every block that starts inside the grid), the reset of the reduction
    state and the staging of the row norms before the loop are carried out
    exactly when the column offset of the block's first tile is not zero.
    When they are, each thread visits the local rows
    [threadIdx.x, threadIdx.x + blockDim.x, ...] below [kM], copies for
    local row [r] the element [row0 + r], and reads only elements in
    [[row0, M)]. *)
Theorem preloop_guard
    (kM kN : Z) (problem : GemmCoord) (ctx : launch) (fuel : nat) :
  representable kM kN problem ->
  launched ctx ->
  1 <= n problem ->
  kM <= INT_MAX - 1024 ->
  kM <= Z.of_nat fuel ->
  let first := problem_chunk_start kM kN problem ctx in
  let row0 := first / column (grid_shape_ kM kN problem) * kM in
  row0 + kM - 1 <= INT_MAX ->
  exists col off init pre,
    first_column kM kN problem ctx = Ok col /\
    threadblock_offset kM kN problem first = Ok off /\
    init_reduced_store kM fuel ctx col = Ok init /\
    prefetch_rownorm kM kN fuel problem ctx col = Ok pre /\
    col = column off /\
    (column off = 0 -> init = [] /\ pre = []) /\
    (column off <> 0 ->
       exists rows,
         init = map InitReduced rows /\
         pre = map (fun row_local =>
                      CpAsync row_local (row0 + row_local)
                              (row0 + row_local <? m problem)) rows /\
         Forall (fun r => threadIdx_x ctx <= r < kM) rows /\
         (threadIdx_x ctx < kM -> hd_error rows = Some (threadIdx_x ctx))) /\
    (threadIdx_x ctx < kM -> (init <> [] <-> column off <> 0)) /\
    (threadIdx_x ctx < kM -> (pre <> [] <-> column off <> 0)) /\
    Forall (fun r => row0 <= r < m problem) (gmem_reads pre).
Proof.
  intros Hrep (Hgrid & Hblock & Hbd & Htid) Hn HkMmax Hfuel first row0 Hrow0.
  pose proof INT_MAX_eq as Hmax. pose proof modulus_eq as Hmod.
  pose proof Hrep as (HkM & HkN & Hm & Hn' & Hprod).
  set (gc := column (grid_shape_ kM kN problem)) in *.
  assert (Hgc : gc = ceil_div (n problem) kN)
    by (apply grid_column_exact; lia).
  assert (Hu : u32 gc = gc).
  { unfold gc. rewrite grid_column_u32 by lia. now rewrite <- Hgc. }
  pose proof (ceil_div_bounds (n problem) kN HkN) as Hb. rewrite <- Hgc in Hb.
  assert (Hpos : 1 <= gc) by nia.
  assert (Hfirst : 0 <= first < modulus) by apply u32_range.
  pose proof (Z.div_mod first gc ltac:(lia)) as Hdm.
  pose proof (Z.mod_pos_bound first gc ltac:(lia)) as Hmb.
  assert (Hq : 0 <= first / gc) by (apply Z.div_pos; lia).
  (* the two computations of the first column offset agree *)
  assert (Hcol : s32 (u32 (first mod gc * u32 kN))
                 = int_mul (s32 (first mod gc)) kN).
  { rewrite (s32_small (first mod gc)) by nia.
    rewrite int_mul_exact by nia.
    destruct (Z.eq_dec (first mod gc) 0) as [E|NE].
    - rewrite E. reflexivity.
    - assert (kN <= INT_MAX) by nia.
      rewrite (u32_small kN) by lia.
      rewrite u32_small by nia. apply s32_small. nia. }
  assert (Hrow : s32 (u32 (first / gc * u32 kM)) = row0).
  { rewrite (u32_small kM) by lia. fold row0.
    rewrite u32_small by (unfold row0 in *; nia).
    apply s32_small. unfold row0 in *; nia. }
  destruct (strided_rows_run kM (blockDim_x ctx) ltac:(lia) ltac:(lia)
              fuel (threadIdx_x ctx) ltac:(lia) ltac:(lia))
    as (rows & Hrows & Hall & Hhd).
  assert (Hall' : Forall (fun r => threadIdx_x ctx <= r < kM) rows).
  { eapply Forall_impl; [|exact Hall]. intros x (Hx & j & Hj & ->). nia. }
  assert (Hfc : first_column kM kN problem ctx
                = Ok (int_mul (s32 (first mod gc)) kN)).
  { unfold first_column, umod. fold first gc. rewrite Hu.
    destruct (Z.eqb_spec gc 0); [lia|]. cbn [bind]. now rewrite Hcol. }
  assert (Hoff : threadblock_offset kM kN problem first
                 = Ok {| row := int_mul (s32 (first / gc)) kM;
                         column := int_mul (s32 (first mod gc)) kN |}).
  { rewrite threadblock_offset_run by (fold gc; lia). fold gc. now rewrite Hu. }
  set (col := int_mul (s32 (first mod gc)) kN) in *.
  assert (Hguard : map (fun row_local =>
                          CpAsync row_local (row0 + row_local)
                                  (int_add row0 row_local <? m problem)) rows
                   = map (fun row_local =>
                            CpAsync row_local (row0 + row_local)
                                    (row0 + row_local <? m problem)) rows).
  { apply map_ext_in. intros x Hx.
    rewrite Forall_forall in Hall'. specialize (Hall' x Hx).
    rewrite int_add_exact by (unfold row0 in *; nia). reflexivity. }
  assert (Hreads : forall rs,
            Forall (fun r => threadIdx_x ctx <= r < kM) rs ->
            Forall (fun r => row0 <= r < m problem)
              (gmem_reads (map (fun row_local =>
                 CpAsync row_local (row0 + row_local)
                         (row0 + row_local <? m problem)) rs))).
  { intros rs Hrs. rewrite gmem_reads_prefetch.
    apply Forall_forall. intros r Hr. apply in_map_iff in Hr.
    destruct Hr as (x & <- & Hx). apply filter_In in Hx.
    destruct Hx as (Hx & Hg). apply Z.ltb_lt in Hg.
    rewrite Forall_forall in Hrs. specialize (Hrs x Hx). lia. }
  destruct (Z.eq_dec col 0) as [E0|NE0].
  - exists col, {| row := int_mul (s32 (first / gc)) kM; column := col |}, [], [].
    split; [exact Hfc|]. split; [exact Hoff|].
    unfold init_reduced_store, prefetch_rownorm. rewrite E0. cbn [Z.eqb column].
    repeat split; try reflexivity; try congruence; try (intros; congruence).
    constructor.
  - exists col, {| row := int_mul (s32 (first / gc)) kM; column := col |},
      (map InitReduced rows),
      (map (fun row_local =>
              CpAsync row_local (row0 + row_local)
                      (row0 + row_local <? m problem)) rows).
    split; [exact Hfc|]. split; [exact Hoff|].
    assert (Hs : s32 (threadIdx_x ctx) = threadIdx_x ctx) by (apply s32_small; lia).
    split.
    { unfold init_reduced_store. destruct (Z.eqb_spec col 0); [contradiction|].
      rewrite Hs, Hrows. reflexivity. }
    split.
    { unfold prefetch_rownorm. destruct (Z.eqb_spec col 0); [contradiction|].
      unfold prefetch_row, udiv. fold first gc. rewrite Hu.
      destruct (Z.eqb_spec gc 0); [lia|]. cbn [bind].
      rewrite Hrow, Hs, Hrows. cbn [bind]. now rewrite Hguard. }
    cbn [column]. split; [reflexivity|].
    split; [intros; contradiction|].
    split; [intros _; exists rows; repeat split; assumption|].
    split.
    { intros Ht. specialize (Hhd Ht). destruct rows; [discriminate|].
      split; [intros _; assumption|intros _; discriminate]. }
    split.
    { intros Ht. specialize (Hhd Ht). destruct rows; [discriminate|].
      split; [intros _; assumption|intros _; discriminate]. }
    apply Hreads. exact Hall'.
Qed.

Lemma preloop_guard_witness :
  exists col pre,
    first_column 4 4 problem_8x12 (unit_launch 4 2) = Ok col /\
    col <> 0 /\
    prefetch_rownorm 4 4 4 problem_8x12 (unit_launch 4 2) col = Ok pre /\
    pre <> [] /\
    Forall (fun r => 4 <= r < 8) (gmem_reads pre).
Proof.
  destruct (preloop_guard 4 4 problem_8x12 (unit_launch 4 2) 4)
    as (col & off & init & pre & Hcol & Hoff & _ & Hpre & Heq & _ & _ & _
        & Hne & Hreads).
  - closed_arith.
  - closed_arith.
  - closed_arith.
  - closed_arith.
  - closed_arith.
  - closed_arith.
  - assert (Hnz : column off <> 0).
    { assert (E : Ok off = Ok {| row := 4; column := 4 |})
        by (rewrite <- Hoff; reflexivity).
      injection E as ->. discriminate. }
    exists col, pre.
    split; [exact Hcol|]. split; [rewrite Heq; exact Hnz|].
    split; [exact Hpre|].
    split; [apply Hne; [reflexivity|exact Hnz]|exact Hreads].
Defined.

(** C4 as stated fails for a block whose first row offset is not
    representable in [int].  On a 1 x 2 problem with 4 x 1 tiles and
    [INT_MAX] blocks of one tile each, block 1073741825 starts at column
    offset 1, so the staging runs; its first row is
    [(1073741825 / 2) * 4 = 2147483648], which the kernel holds as
    [-2147483648], and thread 0 issues a copy whose guard is true from
    element [-2147483648] of the row-norm vector. *)
Lemma preloop_guard_overflow :
  first_column 4 1 {| m := 1; n := 2; k := 1 |}
    (mkLaunch 2147483647 1073741825 32 0) = Ok 1 /\
  problem_chunk_start 4 1 {| m := 1; n := 2; k := 1 |}
    (mkLaunch 2147483647 1073741825 32 0)
    / column (grid_shape_ 4 1 {| m := 1; n := 2; k := 1 |}) * 4 = 2147483648 /\
  prefetch_rownorm 4 1 4 {| m := 1; n := 2; k := 1 |}
    (mkLaunch 2147483647 1073741825 32 0) 1
    = Ok [CpAsync 0 (-2147483648) true] /\
  gmem_reads [CpAsync 0 (-2147483648) true] = [-2147483648] /\
  ~ Forall (fun r => 2147483648 <= r < 1) [-2147483648].
Proof.
  split; [vm_compute; reflexivity|]. split; [vm_compute; reflexivity|].
  split; [vm_compute; reflexivity|]. split; [reflexivity|].
  intros H. inversion H as [|x l Hx _]. lia.
Qed.

(** C6.  A byte written through [kernel.main_loop] or through the epilogue
    member of the union, anywhere inside that member, leaves every byte of
    [reduced_store] and of [rownorm_store] as it was. *)
Theorem persistent_stores_survive
    (main_loop_t epilogue_t reduced_store_t rownorm_store_t
       : SharedStorage.type_layout)
    (mb : SharedStorage.member) (i v : Z) (s s' : SharedStorage.smem) :
  well_formed_layout main_loop_t ->
  well_formed_layout epilogue_t ->
  well_formed_layout reduced_store_t ->
  well_formed_layout rownorm_store_t ->
  mb = SharedStorage.main_loop \/ mb = SharedStorage.epilogue ->
  SharedStorage.write main_loop_t epilogue_t reduced_store_t rownorm_store_t
    mb i v s = Some s' ->
  SharedStorage.contents main_loop_t epilogue_t reduced_store_t rownorm_store_t
    SharedStorage.reduced_store s'
  = SharedStorage.contents main_loop_t epilogue_t reduced_store_t rownorm_store_t
      SharedStorage.reduced_store s /\
  SharedStorage.contents main_loop_t epilogue_t reduced_store_t rownorm_store_t
    SharedStorage.rownorm_store s'
  = SharedStorage.contents main_loop_t epilogue_t reduced_store_t rownorm_store_t
      SharedStorage.rownorm_store s.
Proof.
  intros Hmain Hepi Hred Hnorm Hmb Hwrite.
  destruct (union_before_stores main_loop_t epilogue_t reduced_store_t
              rownorm_store_t Hmain Hepi Hred Hnorm mb Hmb)
    as (Hoff & Hend & Hnext).
  unfold SharedStorage.write in Hwrite.
  destruct (Z.leb_spec 0 i) as [Hi0|]; [|discriminate].
  destruct (Z.ltb_spec i
              (SharedStorage.member_size main_loop_t epilogue_t reduced_store_t
                 rownorm_store_t mb)) as [Hi1|]; [|discriminate].
  cbn [andb] in Hwrite. injection Hwrite as <-.
  unfold SharedStorage.contents.
  split; apply map_ext; intros j; apply store_frame; lia.
Qed.

Lemma persistent_stores_survive_witness :
  SharedStorage.contents sample_main_loop_t sample_epilogue_t
    sample_reduced_store_t sample_rownorm_store_t
    SharedStorage.reduced_store (SharedStorage.store (fun _ => 0) 47 255)
  = SharedStorage.contents sample_main_loop_t sample_epilogue_t
      sample_reduced_store_t sample_rownorm_store_t
      SharedStorage.reduced_store (fun _ => 0).
Proof.
  refine (proj1 (persistent_stores_survive sample_main_loop_t sample_epilogue_t
                   sample_reduced_store_t sample_rownorm_store_t
                   SharedStorage.main_loop 47 255 (fun _ => 0)
                   (SharedStorage.store (fun _ => 0) 47 255)
                   _ _ _ _ _ _)).
  - closed_arith.
  - closed_arith.
  - closed_arith.
  - closed_arith.
  - left. reflexivity.
  - reflexivity.
Defined.

(** * Further properties of the kernel *)

(** ** Geometry of the tile grid *)

Section GeometryFacts.

Variables kM kN : Z.
Variable problem : GemmCoord.
Hypothesis HkM : 1 <= kM.
Hypothesis HkN : 1 <= kN.
Hypothesis Hm : 1 <= m problem /\ m problem - 1 + kM <= INT_MAX.
Hypothesis Hn : 1 <= n problem /\ n problem - 1 + kN <= INT_MAX.

Local Abbreviation grid_rows := (ceil_div (m problem) kM).
Local Abbreviation grid_cols := (ceil_div (n problem) kN).

Lemma grid_dims :
  1 <= grid_rows /\ 1 <= grid_cols <= INT_MAX /\
  (grid_rows - 1) * kM < m problem <= grid_rows * kM /\
  (grid_cols - 1) * kN < n problem <= grid_cols * kN /\
  u32 (column (grid_shape_ kM kN problem)) = grid_cols.
Proof.
  pose proof (ceil_div_bounds (m problem) kM HkM).
  pose proof (ceil_div_bounds (n problem) kN HkN).
  pose proof (ceil_div_le (n problem) kN HkN ltac:(lia)).
  pose proof (grid_column_u32 kM kN HkN problem ltac:(lia) ltac:(lia)).
  repeat split; try assumption; try nia; lia.
Qed.

(** The offset of a tile whose row offset is representable in [int]. *)
Lemma tile_offset_exact (t : Z) :
  0 <= t <= INT_MAX ->
  t / grid_cols * kM <= INT_MAX ->
  threadblock_offset kM kN problem t =
  Ok {| row := t / grid_cols * kM; column := t mod grid_cols * kN |}.
Proof.
  intros Ht Hrow. destruct grid_dims as (_ & Hc & _ & Hcb & Hu).
  rewrite threadblock_offset_run by (rewrite Hu; lia).
  rewrite Hu.
  pose proof (Z.mod_pos_bound t grid_cols ltac:(lia)).
  assert (0 <= t / grid_cols <= t).
  { split; [apply Z.div_pos; lia|]. apply Z.div_le_upper_bound; nia. }
  rewrite !s32_small by lia.
  rewrite !int_mul_exact by nia. reflexivity.
Qed.

Lemma tile_count_grid :
  grid_rows * grid_cols <= INT_MAX ->
  tile_count_ (grid_shape_ kM kN problem) = grid_rows * grid_cols.
Proof.
  intros Hprod. rewrite grid_shape_ceil by lia. unfold tile_count_.
  cbn [row column]. destruct grid_dims as (Hr & Hc & _).
  pose proof INT_MAX_eq. rewrite int_mul_exact by nia.
  apply u32_small. rewrite modulus_eq. nia.
Qed.

(** Tiles of the grid have a representable row offset. *)
Lemma in_grid_row_offset (t : Z) :
  0 <= t < grid_rows * grid_cols ->
  0 <= t / grid_cols * kM /\ t / grid_cols * kM + kM - 1 <= INT_MAX.
Proof.
  intros Ht. destruct grid_dims as (Hr & Hc & Hrb & _).
  assert (0 <= t / grid_cols < grid_rows).
  { split; [apply Z.div_pos; lia|]. apply Z.div_lt_upper_bound; nia. }
  nia.
Qed.

End GeometryFacts.

(** Every event of a loop that ran to its end is a tile started with the
    offset of its index, the flush flag of lines 445-448 and the main-loop
    step count of line 491. *)
Lemma persistent_loop_events (kM kN kK : Z) (problem : GemmCoord) (e : Z) :
  forall (fuel : nat) (t : Z) (evs : list event),
    persistent_loop kM kN kK fuel problem e t = Ok evs ->
    Forall (fun ev =>
              exists t' off,
                threadblock_offset kM kN problem t' = Ok off /\
                ev = Tile t' off
                       (doesRowChange kN problem off || negb (isNextTile e t'))
                       (gemm_k_iterations kK problem)) evs.
Proof.
  induction fuel as [|fuel IH]; intros t evs; cbn [persistent_loop];
    destruct (t <? e); try discriminate;
    try (intros H; injection H as <-; constructor).
  unfold tile_body at 1.
  destruct (threadblock_offset kM kN problem t) as [off| |] eqn:Hoff;
    cbn [bind]; try discriminate.
  destruct (persistent_loop kM kN kK fuel problem e (u32 (t + 1)))
    as [rest| |] eqn:Hrest; cbn [bind]; try discriminate.
  intros H. injection H as <-. constructor.
  - exists t, off. split; [assumption|].
    unfold gemm_k_iterations.
    now destruct (doesRowChange kN problem off || negb (isNextTile e t)).
  - eapply IH. eassumption.
Qed.

(** X1.  When [K + kK - 1] is representable in [int], the main loop of
    every tile runs [ceil(K / kK)] steps: enough to cover the reduction
    dimension and never a whole step more; with [K = 0] it runs none. *)
Theorem gemm_k_iterations_cover
    (kM kN kK : Z) (problem : GemmCoord) (ctx : launch) (fuel : nat)
    (evs : list event) (tile_idx : Z) (off : MatrixCoord) (flush : bool)
    (iters : Z) :
  1 <= kK -> 0 <= k problem -> k problem + kK - 1 <= INT_MAX ->
  block_tiles kM kN kK fuel problem ctx = Ok evs ->
  In (Tile tile_idx off flush iters) evs ->
  iters = gemm_k_iterations kK problem /\
  iters = ceil_div (k problem) kK /\
  (iters - 1) * kK < k problem <= iters * kK /\
  (k problem = 0 -> iters = 0).
Proof.
  intros HkK Hk Hk' Hrun Hin.
  pose proof (persistent_loop_events _ _ _ _ _ _ _ _ Hrun) as Hall.
  rewrite Forall_forall in Hall.
  destruct (Hall _ Hin) as (t' & off' & _ & E). injection E as _ _ _ ->.
  assert (Hc : gemm_k_iterations kK problem = ceil_div (k problem) kK).
  { unfold gemm_k_iterations.
    rewrite int_sub_add_exact by lia.
    replace (k problem + kK - 1) with (k problem - 1 + kK) by lia.
    now apply ceil_div_quot. }
  rewrite Hc. pose proof (ceil_div_bounds (k problem) kK HkK).
  repeat split; try lia.
  intros ->. now apply ceil_div_0.
Qed.

Lemma gemm_k_iterations_cover_witness :
  1 = gemm_k_iterations 2 problem_8x8 /\ 1 = ceil_div 2 2.
Proof.
  destruct (gemm_k_iterations_cover 4 4 2 problem_8x8 (unit_launch 2 1) 2
              [Tile 2 {| row := 4; column := 0 |} false 1;
               Tile 3 {| row := 4; column := 4 |} true 1]
              3 {| row := 4; column := 4 |} true 1)
    as (H1 & H2 & _).
  - closed_arith.
  - closed_arith.
  - closed_arith.
  - vm_compute. reflexivity.
  - right. left. reflexivity.
  - split; [exact H1|exact H2].
Defined.

(** X2.  For a tile index whose row offset
    [(tile_idx / grid_columns) * kM] is representable in [int], the column
    offset lies inside the matrix, and the row offset does exactly when the
    tile index is below the tile count: tiles of the grid start inside the
    [M] x [N] output, such an index at or beyond the tile count starts at
    or below row [M]. *)
Theorem tile_offset_in_matrix
    (kM kN : Z) (problem : GemmCoord) (tile_idx : Z) :
  representable kM kN problem ->
  1 <= m problem -> 1 <= n problem ->
  0 <= tile_idx <= INT_MAX ->
  tile_idx / column (grid_shape_ kM kN problem) * kM <= INT_MAX ->
  exists off,
    threadblock_offset kM kN problem tile_idx = Ok off /\
    0 <= row off /\
    0 <= column off < n problem /\
    (row off < m problem <->
       tile_idx < tile_count_ (grid_shape_ kM kN problem)).
Proof.
  intros (HkM & HkN & Hm0 & Hn0 & Hprod) Hm Hn Ht Hrow.
  rewrite grid_shape_ceil in Hprod by lia. cbn [row column] in Hprod.
  rewrite grid_column_exact in Hrow by lia.
  rewrite (tile_count_grid kM kN problem) by (assumption || lia).
  rewrite (tile_offset_exact kM kN problem) by (assumption || lia).
  eexists. split; [reflexivity|]. cbn [row column].
  destruct (grid_dims kM kN problem HkM HkN ltac:(lia) ltac:(lia))
    as (Hr & Hc & Hrb & Hcb & _).
  set (gc := ceil_div (n problem) kN) in *.
  set (gr := ceil_div (m problem) kM) in *.
  pose proof (Z.div_mod tile_idx gc ltac:(lia)) as Hdm.
  pose proof (Z.mod_pos_bound tile_idx gc ltac:(lia)) as Hmb.
  assert (Hq : 0 <= tile_idx / gc) by (apply Z.div_pos; lia).
  split; [nia|]. split; [nia|].
  split; intros H.
  - assert (tile_idx / gc < gr) by nia. nia.
  - assert (tile_idx / gc < gr) by (apply Z.div_lt_upper_bound; nia). nia.
Qed.

Lemma tile_offset_in_matrix_witness :
  exists off,
    threadblock_offset 4 4 problem_8x8 4 = Ok off /\ ~ row off < 8.
Proof.
  destruct (tile_offset_in_matrix 4 4 problem_8x8 4)
    as (off & Hoff & _ & _ & Hiff).
  - closed_arith.
  - closed_arith.
  - closed_arith.
  - closed_arith.
  - closed_arith.
  - exists off. split; [exact Hoff|].
    intros Hlt. apply Hiff in Hlt. vm_compute in Hlt. discriminate.
Defined.

Lemma div_interval_iff (i d a : Z) :
  1 <= d -> (a * d <= i < a * d + d <-> i / d = a).
Proof.
  intros Hd. split.
  - intros H. symmetry. apply (Z.div_unique _ _ _ (i - a * d)); lia.
  - intros <-. pose proof (Z.div_mod i d ltac:(lia)).
    pose proof (Z.mod_pos_bound i d ltac:(lia)). lia.
Qed.

(** X3.  The tiles of the grid cover the output exactly once: every
    element [(i, j)] of the [M] x [N] output lies in the tile of exactly
    one tile index below the tile count. *)
Theorem tiles_cover_matrix_once
    (kM kN : Z) (problem : GemmCoord) (i j : Z) :
  representable kM kN problem ->
  0 <= i < m problem -> 0 <= j < n problem ->
  exists tile_idx,
    0 <= tile_idx < tile_count_ (grid_shape_ kM kN problem) /\
    tile_covers kM kN problem tile_idx i j /\
    forall t', 0 <= t' < tile_count_ (grid_shape_ kM kN problem) ->
      tile_covers kM kN problem t' i j -> t' = tile_idx.
Proof.
  intros (HkM & HkN & Hm0 & Hn0 & Hprod) Hi Hj.
  rewrite grid_shape_ceil in Hprod by lia. cbn [row column] in Hprod.
  rewrite (tile_count_grid kM kN problem) by (assumption || lia).
  destruct (grid_dims kM kN problem HkM HkN ltac:(lia) ltac:(lia))
    as (Hr & Hc & Hrb & Hcb & _).
  pose proof INT_MAX_eq as Hmax.
  set (gc := ceil_div (n problem) kN) in *.
  set (gr := ceil_div (m problem) kM) in *.
  pose proof (Z.div_mod i kM ltac:(lia)) as Hdi.
  pose proof (Z.mod_pos_bound i kM ltac:(lia)) as Hmi.
  pose proof (Z.div_mod j kN ltac:(lia)) as Hdj.
  pose proof (Z.mod_pos_bound j kN ltac:(lia)) as Hmj.
  assert (Hqi : 0 <= i / kM < gr).
  { split; [apply Z.div_pos; lia|]. apply Z.div_lt_upper_bound; nia. }
  assert (Hqj : 0 <= j / kN < gc).
  { split; [apply Z.div_pos; lia|]. apply Z.div_lt_upper_bound; nia. }
  assert (Hcov : forall t, 0 <= t < gr * gc ->
            (tile_covers kM kN problem t i j <->
             i / kM = t / gc /\ j / kN = t mod gc)).
  { intros t Ht. unfold tile_covers.
    pose proof (in_grid_row_offset kM kN problem HkM HkN
                  ltac:(lia) ltac:(lia) t Ht) as Hro.
    rewrite (tile_offset_exact kM kN problem) by (assumption || lia).
    fold gc.
    rewrite <- (div_interval_iff i kM (t / gc)) by lia.
    rewrite <- (div_interval_iff j kN (t mod gc)) by lia.
    split.
    - intros (off & E & Hrow & Hcol). injection E as <-.
      cbn [row column] in Hrow, Hcol. split; assumption.
    - intros (E1 & E2). eexists. split; [reflexivity|].
      cbn [row column]. split; assumption. }
  exists (i / kM * gc + j / kN).
  assert (Hdiv : (i / kM * gc + j / kN) / gc = i / kM).
  { symmetry. apply (Z.div_unique _ _ _ (j / kN)); lia. }
  assert (Hmod : (i / kM * gc + j / kN) mod gc = j / kN).
  { symmetry. apply (Z.mod_unique _ _ (i / kM)); lia. }
  assert (Hrange : 0 <= i / kM * gc + j / kN < gr * gc) by nia.
  split; [exact Hrange|]. split.
  - apply Hcov; [exact Hrange|]. split; congruence.
  - intros t' Ht' Hc'. apply Hcov in Hc'; [|exact Ht'].
    destruct Hc' as (E1 & E2).
    pose proof (Z.div_mod t' gc ltac:(lia)) as Hd'.
    rewrite <- E1, <- E2 in Hd'. lia.
Qed.

Lemma tiles_cover_matrix_once_witness :
  exists tile_idx,
    0 <= tile_idx < tile_count_ (grid_shape_ 4 4 problem_8x12) /\
    tile_covers 4 4 problem_8x12 tile_idx 5 9.
Proof.
  destruct (tiles_cover_matrix_once 4 4 problem_8x12 5 9)
    as (t & Ht & Hc & _).
  - closed_arith.
  - closed_arith.
  - closed_arith.
  - exists t. split; [exact Ht|exact Hc].
Defined.

(** ** Events of a block *)

Lemma Forall2_In_r {A B : Type} (R : A -> B -> Prop) (xs : list A) (ys : list B) :
  Forall2 R xs ys -> forall y, In y ys -> exists x, In x xs /\ R x y.
Proof.
  induction 1 as [|x y0 xs ys Hhd _ IH]; intros y Hy; [contradiction|].
  destruct Hy as [<-|Hy].
  - exists x. split; [now left|assumption].
  - destruct (IH y Hy) as (x' & Hx' & HR). exists x'. split; [now right|assumption].
Qed.

Lemma Forall2_In_l {A B : Type} (R : A -> B -> Prop) (xs : list A) (ys : list B) :
  Forall2 R xs ys -> forall x, In x xs -> exists y, In y ys /\ R x y.
Proof.
  induction 1 as [|x0 y xs ys Hhd _ IH]; intros x Hx; [contradiction|].
  destruct Hx as [<-|Hx].
  - exists y. split; [now left|assumption].
  - destruct (IH x Hx) as (y' & Hy' & HR). exists y'. split; [now right|assumption].
Qed.

Section BlockEvents.

Variables kM kN kK : Z.
Variable problem : GemmCoord.
Variable ctx : launch.
Hypothesis Hrep : representable kM kN problem.
Hypothesis Hgrid : 1 <= gridDim_x ctx <= INT_MAX.
Hypothesis Hblock : 0 <= blockIdx_x ctx < gridDim_x ctx.

Local Abbreviation tiles := (tile_count_ (grid_shape_ kM kN problem)).
Local Abbreviation chunk := (ceil_div tiles (gridDim_x ctx)).
Local Abbreviation first := (blockIdx_x ctx * chunk).

(** The event a block records for tile [t] of its range. *)
Local Abbreviation tile_event t off :=
  (Tile t off (doesRowChange kN problem off || (t + 1 =? first + chunk))
        (gemm_k_iterations kK problem)).

Lemma tile_body_in_range (t : Z) :
  first <= t < first + chunk ->
  exists off,
    threadblock_offset kM kN problem t = Ok off /\
    tile_body kM kN kK problem (first + chunk) t = Ok (tile_event t off).
Proof.
  intros Ht.
  pose proof (chunk_end_small kM kN problem ctx Hrep Hgrid Hblock) as (Hlo & Hhi).
  assert (Hcols : u32 (column (grid_shape_ kM kN problem)) <> 0).
  { apply grid_columns_nonzero; [assumption|].
    destruct (chunk_bounds kM kN problem ctx Hrep Hgrid) as [(_ & Hc1)|(_ & Hc0)];
      nia. }
  destruct (tile_body_run kM kN kK problem (first + chunk) t Hcols)
    as (off & Hoff & Hbody).
  exists off. split; [exact Hoff|]. rewrite Hbody.
  unfold isNextTile, gemm_k_iterations. rewrite u32_small by lia.
  do 2 f_equal.
  destruct (Z.ltb_spec (t + 1) (first + chunk)),
           (Z.eqb_spec (t + 1) (first + chunk)); try lia; reflexivity.
Qed.

(** The events of a block, with enough fuel: one per index of its range,
    in order, and nothing else. *)
Lemma block_tiles_events (fuel : nat) :
  chunk <= Z.of_nat fuel ->
  exists evs,
    block_tiles kM kN kK fuel problem ctx = Ok evs /\
    tile_indices evs = Zrange first (first + chunk) /\
    Z.of_nat (length evs) = chunk /\
    (forall t, first <= t < first + chunk ->
       exists off, threadblock_offset kM kN problem t = Ok off /\
                   In (tile_event t off) evs) /\
    (forall ev, In ev evs ->
       exists t off, first <= t < first + chunk /\
                     threadblock_offset kM kN problem t = Ok off /\
                     ev = tile_event t off).
Proof.
  intros Hfuel.
  destruct (block_tiles_run kM kN kK problem ctx Hrep Hgrid Hblock fuel Hfuel)
    as (evs & Hrun & Hall).
  exists evs. split; [exact Hrun|].
  split; [eapply Forall2_tile_indices; eassumption|].
  split.
  { rewrite <- (Forall2_length Hall), Zrange_length.
    destruct (chunk_bounds kM kN problem ctx Hrep Hgrid) as [(Hc0 & _)|(_ & Hc0)];
      lia. }
  split.
  - intros t Ht.
    destruct (Forall2_In_l _ _ _ Hall t) as (ev & Hin & Hbody);
      [now apply Zrange_In|].
    destruct (tile_body_in_range t Ht) as (off & Hoff & Hbody').
    exists off. split; [exact Hoff|]. congruence.
  - intros ev Hin.
    destruct (Forall2_In_r _ _ _ Hall ev Hin) as (t & Ht & Hbody).
    apply Zrange_In in Ht.
    destruct (tile_body_in_range t Ht) as (off & Hoff & Hbody').
    exists t, off. split; [exact Ht|]. split; [exact Hoff|]. congruence.
Qed.

End BlockEvents.

(** X4.  Every block performs exactly [problem_chunk] iterations of the
    persistent loop, whatever its index; over the whole grid that is
    [gridDim.x * problem_chunk] iterations, at least the tile count and
    less than the tile count plus [gridDim.x]. *)
Theorem block_iteration_count
    (kM kN kK : Z) (problem : GemmCoord) (ctx : launch) (fuel : nat) :
  representable kM kN problem ->
  1 <= gridDim_x ctx <= INT_MAX ->
  0 <= blockIdx_x ctx < gridDim_x ctx ->
  problem_chunk kM kN problem ctx <= Z.of_nat fuel ->
  let total_tiles := tile_count_ (grid_shape_ kM kN problem) in
  exists evs,
    block_tiles kM kN kK fuel problem ctx = Ok evs /\
    Z.of_nat (length evs) = problem_chunk kM kN problem ctx /\
    total_tiles <= gridDim_x ctx * problem_chunk kM kN problem ctx /\
    (1 <= total_tiles ->
     gridDim_x ctx * problem_chunk kM kN problem ctx
       < total_tiles + gridDim_x ctx).
Proof.
  intros Hrep Hgrid Hblock Hfuel total_tiles.
  rewrite (problem_chunk_ceil kM kN problem ctx Hrep Hgrid) in *.
  destruct (block_tiles_events kM kN kK problem ctx Hrep Hgrid Hblock fuel Hfuel)
    as (evs & Hrun & _ & Hlen & _).
  exists evs. split; [exact Hrun|]. split; [exact Hlen|].
  pose proof (ceil_div_bounds total_tiles (gridDim_x ctx) ltac:(lia)) as Hb.
  fold total_tiles. split; [nia|]. intros _. nia.
Qed.

Lemma block_iteration_count_witness :
  exists evs,
    block_tiles 4 4 2 2 problem_8x12 (unit_launch 4 3) = Ok evs /\
    Z.of_nat (length evs) = 2.
Proof.
  destruct (block_iteration_count 4 4 2 problem_8x12 (unit_launch 4 3) 2)
    as (evs & Hrun & Hlen & _).
  - closed_arith.
  - closed_arith.
  - closed_arith.
  - closed_arith.
  - exists evs. split; [exact Hrun|]. rewrite Hlen. reflexivity.
Defined.

(** X5.  A block executes tile index [t] exactly when [t] is at or after
    its first index and [custom_next_tile_] accepts [t]: the unused helper
    and the loop condition draw the same boundary. *)
Theorem custom_next_tile_boundary
    (kM kN kK : Z) (problem : GemmCoord) (ctx : launch) (fuel : nat) (t : Z) :
  representable kM kN problem ->
  1 <= gridDim_x ctx <= INT_MAX ->
  0 <= blockIdx_x ctx < gridDim_x ctx ->
  problem_chunk kM kN problem ctx <= Z.of_nat fuel ->
  exists evs,
    block_tiles kM kN kK fuel problem ctx = Ok evs /\
    (In t (tile_indices evs) <->
       problem_chunk_start kM kN problem ctx <= t /\
       custom_next_tile_ kM kN problem ctx t = true).
Proof.
  intros Hrep Hgrid Hblock Hfuel.
  rewrite (problem_chunk_ceil kM kN problem ctx Hrep Hgrid) in Hfuel.
  destruct (block_tiles_events kM kN kK problem ctx Hrep Hgrid Hblock fuel Hfuel)
    as (evs & Hrun & Hidx & _).
  exists evs. split; [exact Hrun|].
  rewrite Hidx, Zrange_In. unfold custom_next_tile_.
  rewrite (problem_chunk_end_eq kM kN problem ctx Hrep Hgrid Hblock).
  rewrite (problem_chunk_start_eq kM kN problem ctx Hrep Hgrid Hblock).
  destruct (Z.ltb_spec t
              (blockIdx_x ctx
               * ceil_div (tile_count_ (grid_shape_ kM kN problem)) (gridDim_x ctx)
               + ceil_div (tile_count_ (grid_shape_ kM kN problem)) (gridDim_x ctx)));
    split; intros H'; try lia; try (split; [lia|reflexivity]).
Qed.

Lemma custom_next_tile_boundary_witness :
  exists evs,
    block_tiles 4 4 2 2 problem_8x8 (unit_launch 3 2) = Ok evs /\
    In 5 (tile_indices evs).
Proof.
  destruct (custom_next_tile_boundary 4 4 2 problem_8x8 (unit_launch 3 2) 2 5)
    as (evs & Hrun & Hiff).
  - closed_arith.
  - closed_arith.
  - closed_arith.
  - closed_arith.
  - exists evs. split; [exact Hrun|]. apply Hiff. closed_arith.
Defined.

(** ** Row-bands and chunk boundaries *)

Section BandFacts.

Variables kM kN : Z.
Variable problem : GemmCoord.
Hypothesis Hrep : representable kM kN problem.
Hypothesis Hm : 1 <= m problem.
Hypothesis Hn : 1 <= n problem.

Local Abbreviation grid_cols := (column (grid_shape_ kM kN problem)).
Local Abbreviation grid_rows := (row (grid_shape_ kM kN problem)).

Lemma band_grid :
  1 <= kM /\ 1 <= kN /\
  grid_cols = ceil_div (n problem) kN /\
  grid_rows = ceil_div (m problem) kM /\
  1 <= grid_rows /\ 1 <= grid_cols /\
  (grid_cols - 1) * kN < n problem <= grid_cols * kN /\
  tile_count_ (grid_shape_ kM kN problem) = grid_rows * grid_cols /\
  grid_rows * grid_cols <= INT_MAX.
Proof.
  destruct Hrep as (HkM & HkN & Hm0 & Hn0 & Hprod).
  destruct (grid_dims kM kN problem HkM HkN ltac:(lia) ltac:(lia))
    as (Hr & Hc & _ & Hcb & _).
  assert (Hshape := grid_shape_ceil kM kN HkM HkN problem
                      ltac:(lia) ltac:(lia) ltac:(lia) ltac:(lia)).
  assert (HT := tile_count_grid kM kN problem HkM HkN ltac:(lia) ltac:(lia)).
  rewrite Hshape in *. cbn [row column] in *.
  specialize (HT Hprod). repeat split; try assumption; lia.
Qed.

(** The offset of a tile of the grid, in terms of the grid's own column
    count. *)
Lemma band_offset (t : Z) :
  0 <= t < tile_count_ (grid_shape_ kM kN problem) ->
  threadblock_offset kM kN problem t =
  Ok {| row := t / grid_cols * kM; column := t mod grid_cols * kN |}.
Proof.
  intros Ht.
  destruct band_grid as (HkM & HkN & Hc & Hr & _ & _ & _ & HT & Hprod).
  destruct Hrep as (_ & _ & Hm0 & Hn0 & _).
  rewrite HT, Hr, Hc in Ht. rewrite Hr, Hc in Hprod.
  pose proof (in_grid_row_offset kM kN problem HkM HkN
                ltac:(lia) ltac:(lia) t Ht) as Hro.
  rewrite Hc. apply tile_offset_exact; try assumption; lia.
Qed.

(** Line 407 yields the column offset of the block's first tile. *)
Lemma first_column_exact (ctx : launch) :
  1 <= gridDim_x ctx <= INT_MAX ->
  0 <= blockIdx_x ctx < gridDim_x ctx ->
  first_column kM kN problem ctx =
  Ok (problem_chunk_start kM kN problem ctx mod grid_cols * kN).
Proof.
  intros Hgrid Hblock.
  destruct band_grid as (HkM & HkN & Hc & _ & _ & Hc1 & Hcb & _).
  pose proof Hrep as (_ & _ & _ & Hn0 & _).
  pose proof INT_MAX_eq as Hmax. pose proof modulus_eq as Hmod.
  assert (Hu : u32 grid_cols = grid_cols).
  { rewrite grid_column_u32 by lia. now rewrite Hc. }
  rewrite Hc in Hcb.
  unfold first_column, umod. rewrite Hu.
  destruct (Z.eqb_spec grid_cols 0); [lia|]. cbn [bind]. f_equal.
  set (first := problem_chunk_start kM kN problem ctx).
  pose proof (Z.mod_pos_bound first grid_cols ltac:(lia)) as Hmb.
  destruct (Z.eq_dec (first mod grid_cols) 0) as [E|NE].
  - rewrite E. reflexivity.
  - assert (kN <= INT_MAX) by nia.
    rewrite (u32_small kN) by lia.
    rewrite u32_small by nia. apply s32_small. nia.
Qed.

End BandFacts.

(** X6.  The last column-tile of every row-band is executed by exactly one
    block, and that block starts it with [do_gmem_reduce = true]: each
    row-band receives its closing flush. *)
Theorem row_band_closing_flush
    (kM kN kK : Z) (problem : GemmCoord) (g : Z) (fuel : nat) (band : Z) :
  representable kM kN problem ->
  1 <= m problem -> 1 <= n problem ->
  1 <= g <= INT_MAX ->
  ceil_div (tile_count_ (grid_shape_ kM kN problem)) g <= Z.of_nat fuel ->
  0 <= band < row (grid_shape_ kM kN problem) ->
  let grid_columns := column (grid_shape_ kM kN problem) in
  let last_tile := band * grid_columns + grid_columns - 1 in
  exists b, 0 <= b < g /\
    (exists evs,
       block_tiles kM kN kK fuel problem (unit_launch g b) = Ok evs /\
       In (Tile last_tile
                {| row := band * kM; column := (grid_columns - 1) * kN |}
                true (gemm_k_iterations kK problem)) evs) /\
    forall b', 0 <= b' < g ->
      processes kM kN kK fuel problem g b' last_tile -> b' = b.
Proof.
  intros Hrep Hm Hn Hg Hfuel Hband grid_columns last_tile.
  destruct (band_grid kM kN problem Hrep Hm Hn)
    as (HkM & HkN & _ & _ & Hr1 & Hc1 & Hcb & HT & Hprod).
  fold grid_columns in Hc1, Hcb, HT, Hprod.
  set (total_tiles := tile_count_ (grid_shape_ kM kN problem)) in *.
  set (chunk := ceil_div total_tiles g) in *.
  assert (Hlast : 0 <= last_tile < total_tiles) by (unfold last_tile; nia).
  pose proof (ceil_div_bounds total_tiles g ltac:(lia)) as Hcb'.
  fold chunk in Hcb'.
  assert (Hchunk : 1 <= chunk) by nia.
  pose proof (Z.div_mod last_tile chunk ltac:(lia)) as Hdm.
  pose proof (Z.mod_pos_bound last_tile chunk ltac:(lia)) as Hmb.
  assert (Hb : 0 <= last_tile / chunk < g).
  { split; [apply Z.div_pos; lia|]. apply Z.div_lt_upper_bound; nia. }
  assert (Hev : forall b, 0 <= b < g ->
            exists evs,
              block_tiles kM kN kK fuel problem (unit_launch g b) = Ok evs /\
              tile_indices evs = Zrange (b * chunk) (b * chunk + chunk) /\
              (forall t, b * chunk <= t < b * chunk + chunk ->
                 exists off, threadblock_offset kM kN problem t = Ok off /\
                   In (Tile t off
                         (doesRowChange kN problem off
                          || (t + 1 =? b * chunk + chunk))
                         (gemm_k_iterations kK problem)) evs)).
  { intros b Hb'.
    destruct (block_tiles_events kM kN kK problem (unit_launch g b)
                Hrep Hg Hb' fuel Hfuel) as (evs & Hrun & Hidx & _ & Hin & _).
    exists evs. split; [exact Hrun|]. split; [exact Hidx|exact Hin]. }
  exists (last_tile / chunk). split; [exact Hb|]. split.
  - destruct (Hev _ Hb) as (evs & Hrun & _ & Hin).
    exists evs. split; [exact Hrun|].
    destruct (Hin last_tile ltac:(nia)) as (off & Hoff & Hin').
    rewrite (band_offset kM kN problem Hrep Hm Hn) in Hoff
      by (pose proof INT_MAX_eq; lia).
    fold grid_columns in Hoff. injection Hoff as <-.
    assert (Hq : last_tile / grid_columns = band).
    { symmetry. apply (Z.div_unique _ _ _ (grid_columns - 1));
        unfold last_tile; lia. }
    assert (Hr : last_tile mod grid_columns = grid_columns - 1).
    { symmetry. apply (Z.mod_unique _ _ band); unfold last_tile; lia. }
    rewrite Hq, Hr in Hin'.
    assert (Hflag : doesRowChange kN problem
              {| row := band * kM; column := (grid_columns - 1) * kN |} = true).
    { unfold doesRowChange. cbn [column].
      pose proof Hrep as (_ & _ & _ & Hn0 & _). pose proof INT_MAX_eq.
      rewrite int_add_exact by lia. apply Z.geb_le. lia. }
    rewrite Hflag in Hin'. exact Hin'.
  - intros b' Hb' (evs' & Hrun' & Hin').
    destruct (Hev _ Hb') as (evs & Hrun & Hidx & _).
    unfold unit_launch in *. rewrite Hrun in Hrun'. injection Hrun' as <-.
    rewrite Hidx in Hin'. apply Zrange_In in Hin'. nia.
Qed.

Lemma row_band_closing_flush_witness :
  exists b, 0 <= b < 4 /\
    exists evs,
      block_tiles 4 4 2 2 problem_8x12 (unit_launch 4 b) = Ok evs /\
      In (Tile 2 {| row := 0; column := 8 |} true 1) evs.
Proof.
  destruct (row_band_closing_flush 4 4 2 problem_8x12 4 2 0)
    as (b & Hb & (evs & Hrun & Hin) & _).
  - closed_arith.
  - closed_arith.
  - closed_arith.
  - closed_arith.
  - closed_arith.
  - closed_arith.
  - exists b. split; [exact Hb|]. exists evs. split; [exact Hrun|exact Hin].
Defined.

(** X7.  When the boundary between two consecutive blocks falls inside a
    row-band of the grid, the earlier block flushes at its last tile
    although the band is not finished, and the later block starts in the
    same band with a non-zero first column, the condition under which it
    resets the reduction state and stages the row norms before its loop. *)
Theorem split_band_handover
    (kM kN kK : Z) (problem : GemmCoord) (g b : Z) (fuel : nat) :
  representable kM kN problem ->
  1 <= m problem -> 1 <= n problem ->
  1 <= g <= INT_MAX ->
  0 <= b -> b + 1 < g ->
  problem_chunk kM kN problem (unit_launch g b) <= Z.of_nat fuel ->
  let grid_columns := column (grid_shape_ kM kN problem) in
  let boundary := problem_chunk_start kM kN problem (unit_launch g (b + 1)) in
  boundary < tile_count_ (grid_shape_ kM kN problem) ->
  boundary mod grid_columns <> 0 ->
  exists evs off_last off_next col,
    block_tiles kM kN kK fuel problem (unit_launch g b) = Ok evs /\
    In (Tile (boundary - 1) off_last true (gemm_k_iterations kK problem)) evs /\
    column off_last + kN < n problem /\
    threadblock_offset kM kN problem boundary = Ok off_next /\
    row off_next = row off_last /\
    first_column kM kN problem (unit_launch g (b + 1)) = Ok col /\
    col = column off_next /\
    col <> 0.
Proof.
  intros Hrep Hm Hn Hg Hb0 Hb1 Hfuel grid_columns boundary Hin_grid Hmid.
  destruct (band_grid kM kN problem Hrep Hm Hn)
    as (HkM & HkN & _ & _ & Hr1 & Hc1 & Hcb & HT & Hprod).
  fold grid_columns in Hc1, Hcb, HT, Hprod.
  pose proof INT_MAX_eq as Hmax.
  assert (Hgb : 0 <= b < g) by lia.
  assert (Hgb1 : 0 <= b + 1 < g) by lia.
  rewrite (problem_chunk_ceil kM kN problem (unit_launch g b) Hrep Hg) in Hfuel.
  assert (Hbd : boundary
                = (b + 1) * ceil_div (tile_count_ (grid_shape_ kM kN problem)) g).
  { unfold boundary.
    apply (problem_chunk_start_eq kM kN problem (unit_launch g (b + 1)) Hrep Hg Hgb1). }
  cbn [unit_launch gridDim_x] in Hfuel.
  set (total_tiles := tile_count_ (grid_shape_ kM kN problem)) in *.
  set (chunk := ceil_div total_tiles g) in *.
  assert (Hchunk : 1 <= chunk).
  { pose proof (ceil_div_nonneg total_tiles g ltac:(lia)
                  ltac:(unfold total_tiles, tile_count_; apply u32_range)).
    destruct (Z.eq_dec chunk 0) as [E|NE]; [|lia].
    exfalso. apply Hmid. rewrite Hbd. fold chunk. rewrite E, Z.mul_0_r.
    apply Z.mod_0_l. lia. }
  assert (Hbpos : 1 <= boundary) by (rewrite Hbd; nia).
  pose proof (Z.div_mod boundary grid_columns ltac:(lia)) as Hdm.
  pose proof (Z.mod_pos_bound boundary grid_columns ltac:(lia)) as Hmb.
  assert (Hq : (boundary - 1) / grid_columns = boundary / grid_columns).
  { symmetry. apply (Z.div_unique _ _ _ (boundary mod grid_columns - 1)); lia. }
  assert (Hr : (boundary - 1) mod grid_columns = boundary mod grid_columns - 1).
  { symmetry. apply (Z.mod_unique _ _ (boundary / grid_columns)); lia. }
  destruct (block_tiles_events kM kN kK problem (unit_launch g b)
              Hrep Hg Hgb fuel Hfuel) as (evs & Hrun & _ & _ & Hin & _).
  cbn [unit_launch gridDim_x blockIdx_x] in Hin. fold total_tiles chunk in Hin.
  destruct (Hin (boundary - 1) ltac:(rewrite Hbd; fold chunk; nia))
    as (off & Hoff & Hev).
  rewrite (band_offset kM kN problem Hrep Hm Hn) in Hoff by lia.
  fold grid_columns in Hoff. injection Hoff as <-.
  rewrite Hq, Hr in Hev.
  replace (boundary - 1 + 1 =? b * chunk + chunk) with true in Hev
    by (symmetry; apply Z.eqb_eq; rewrite Hbd; fold chunk; lia).
  rewrite orb_true_r in Hev.
  exists evs. do 3 eexists.
  split; [exact Hrun|]. split; [exact Hev|]. cbn [row column].
  split; [nia|].
  split; [apply (band_offset kM kN problem Hrep Hm Hn); lia|].
  fold grid_columns. cbn [row column]. split; [reflexivity|].
  split; [apply (first_column_exact kM kN problem Hrep Hm Hn); assumption|].
  fold grid_columns boundary. split; [reflexivity|]. nia.
Qed.

Lemma split_band_handover_witness :
  exists evs off_last col,
    block_tiles 4 4 2 2 problem_8x12 (unit_launch 4 1) = Ok evs /\
    In (Tile 3 off_last true (gemm_k_iterations 2 problem_8x12)) evs /\
    column off_last + 4 < 12 /\
    first_column 4 4 problem_8x12 (unit_launch 4 2) = Ok col /\
    col <> 0.
Proof.
  destruct (split_band_handover 4 4 2 problem_8x12 4 1 2)
    as (evs & off_last & off_next & col & Hrun & Hin & Hlt & _ & _ & Hcol & _ & Hnz).
  - closed_arith.
  - closed_arith.
  - closed_arith.
  - closed_arith.
  - closed_arith.
  - closed_arith.
  - closed_arith.
  - closed_arith.
  - closed_arith.
  - exists evs, off_last, col.
    split; [exact Hrun|]. split; [exact Hin|]. split; [exact Hlt|].
    split; [exact Hcol|exact Hnz].
Defined.

(** ** Cooperation of the threads of a block *)

(** The strided loop of a thread visits, once each, exactly the indices
    below [kM] that are its start plus a multiple of [blockDim]. *)
Lemma strided_rows_spec (kM blockDim : Z) :
  1 <= blockDim -> kM + blockDim <= INT_MAX + 1 ->
  forall (fuel : nat) (r : Z),
    0 <= r -> kM - r <= Z.of_nat fuel ->
    exists rows,
      strided_rows kM fuel blockDim r = Ok rows /\
      NoDup rows /\
      forall x, In x rows <-> r <= x < kM /\ (x - r) mod blockDim = 0.
Proof.
  intros Hbd Hsum. pose proof INT_MAX_eq as Hmax. pose proof modulus_eq as Hmod.
  induction fuel as [|fuel IH]; intros r Hr Hfuel.
  - exists []. cbn [strided_rows].
    destruct (Z.ltb_spec r kM); [lia|].
    split; [reflexivity|]. split; [constructor|].
    intros x. split; [contradiction|lia].
  - cbn [strided_rows]. destruct (Z.ltb_spec r kM) as [Hlt|Hge].
    + assert (Hnext : s32 (u32 (u32 r + blockDim)) = r + blockDim).
      { rewrite (u32_small r) by lia. rewrite u32_small by lia.
        apply s32_small. lia. }
      rewrite Hnext.
      destruct (IH (r + blockDim)) as (rest & Hrest & Hnd & Hin); [lia|lia|].
      rewrite Hrest. cbn [bind]. eexists. split; [reflexivity|].
      assert (Hshift : forall x, (x - (r + blockDim)) mod blockDim
                                 = (x - r) mod blockDim).
      { intros x. replace (x - (r + blockDim)) with (x - r + (-1) * blockDim) by lia.
        apply Z.mod_add. lia. }
      split.
      * constructor; [|exact Hnd]. intros Hc. apply Hin in Hc. lia.
      * intros x. cbn [In]. rewrite Hin, Hshift. split.
        -- intros [<-|(Hx & Hm)].
           ++ split; [lia|]. rewrite Z.sub_diag. apply Z.mod_0_l. lia.
           ++ split; [lia|exact Hm].
        -- intros (Hx & Hm).
           destruct (Z.eq_dec r x) as [E|NE]; [now left|right].
           split; [|exact Hm].
           pose proof (Z.div_mod (x - r) blockDim ltac:(lia)) as Hdm.
           rewrite Hm in Hdm.
           destruct (Z.le_gt_cases ((x - r) / blockDim) 0) as [Hq|Hq]; nia.
    + exists []. split; [reflexivity|]. split; [constructor|].
      intros x. split; [contradiction|lia].
Qed.

(** Among the threads of a block, the one whose strided loop reaches local
    row [r] is thread [r mod blockDim]. *)
Lemma strided_owner (blockDim tid r : Z) :
  1 <= blockDim -> 0 <= tid < blockDim -> 0 <= r ->
  (tid <= r /\ (r - tid) mod blockDim = 0) <-> tid = r mod blockDim.
Proof.
  intros Hbd Htid Hr.
  pose proof (Z.div_mod r blockDim ltac:(lia)) as Hdm.
  pose proof (Z.mod_pos_bound r blockDim ltac:(lia)) as Hmb.
  split.
  - intros (Hle & Hm).
    pose proof (Z.div_mod (r - tid) blockDim ltac:(lia)) as Hdm'.
    rewrite Hm in Hdm'.
    apply (Z.mod_unique r blockDim ((r - tid) / blockDim) tid); lia.
  - intros ->. split; [apply Z.mod_le; lia|].
    replace (r - r mod blockDim) with (0 + r / blockDim * blockDim) by lia.
    rewrite Z.mod_add by lia. apply Z.mod_0_l. lia.
Qed.

(** X8.  When the reset of the reduction state is executed (non-zero first
    column), every entry of [reduced_store] with index in [[0, kM)] is
    initialised by exactly one thread of the block, thread
    [row mod blockDim.x], and no thread touches an index outside
    [[0, kM)] or initialises an entry twice. *)
Theorem reduced_store_reset_once
    (kM g b blockDim : Z) (fuel : nat) (col r : Z) :
  1 <= blockDim <= 1024 ->
  kM <= INT_MAX - 1024 ->
  kM <= Z.of_nat fuel ->
  col <> 0 ->
  0 <= r < kM ->
  (forall tid, 0 <= tid < blockDim ->
     exists evs,
       init_reduced_store kM fuel (mkLaunch g b blockDim tid) col = Ok evs /\
       NoDup evs /\
       Forall (fun ev => exists x, ev = InitReduced x /\ 0 <= x < kM) evs /\
       (In (InitReduced r) evs <-> tid = r mod blockDim)) /\
  0 <= r mod blockDim < blockDim.
Proof.
  intros Hbd HkM Hfuel Hcol Hr. pose proof INT_MAX_eq as Hmax.
  split; [|apply Z.mod_pos_bound; lia].
  intros tid Htid.
  destruct (strided_rows_spec kM blockDim ltac:(lia) ltac:(lia)
              fuel tid ltac:(lia) ltac:(lia)) as (rows & Hrows & Hnd & Hin).
  unfold init_reduced_store. destruct (Z.eqb_spec col 0); [contradiction|].
  cbn [blockDim_x threadIdx_x]. rewrite s32_small by lia.
  rewrite Hrows. cbn [bind]. eexists. split; [reflexivity|].
  split.
  { apply Injective_map_NoDup; [|exact Hnd]. intros x y E. now injection E. }
  split.
  { apply Forall_forall. intros ev Hev. apply in_map_iff in Hev.
    destruct Hev as (x & <- & Hx). exists x. split; [reflexivity|].
    apply Hin in Hx. lia. }
  rewrite <- (strided_owner blockDim tid r) by lia.
  rewrite in_map_iff. split.
  - intros (x & E & Hx). injection E as ->. apply Hin in Hx. lia.
  - intros (Hle & Hm). exists r. split; [reflexivity|]. apply Hin. lia.
Qed.

Lemma reduced_store_reset_once_witness :
  exists evs,
    init_reduced_store 4 4 (mkLaunch 4 2 2 1) 4 = Ok evs /\
    (In (InitReduced 3) evs <-> 1 = 3 mod 2).
Proof.
  destruct (reduced_store_reset_once 4 4 2 2 4 4 3) as (Hall & _).
  - closed_arith.
  - closed_arith.
  - closed_arith.
  - closed_arith.
  - closed_arith.
  - destruct (Hall 1) as (evs & Hrun & _ & _ & Hiff).
    + closed_arith.
    + exists evs. split; [exact Hrun|exact Hiff].
Defined.

(** X9.  When the row norms are staged (non-zero first column), slot [r]
    of [rownorm_store], for every [r] in [[0, kM)], is the target of
    exactly one copy in the block, issued by thread [r mod blockDim.x] from
    element [row0 + r] of the row-norm vector and guarded by the [int]
    comparison of [row0 + r] with [M]; no copy targets a slot outside
    [[0, kM)].  When the rows of the tile are representable in [int]
    ([row0 + kM - 1 <= INT_MAX]) the guard is the exact comparison
    [row0 + r < M]. *)
Theorem rownorm_staged_once
    (kM kN : Z) (problem : GemmCoord) (g b blockDim : Z) (fuel : nat)
    (col r : Z) :
  1 <= kN -> 1 <= n problem -> n problem - 1 + kN <= INT_MAX ->
  0 <= m problem <= INT_MAX ->
  1 <= g <= INT_MAX -> 0 <= b < g ->
  1 <= blockDim <= 1024 ->
  kM <= INT_MAX - 1024 ->
  kM <= Z.of_nat fuel ->
  col <> 0 ->
  0 <= r < kM ->
  exists row0,
    (row0 + kM - 1 <= INT_MAX ->
     (int_add row0 r <? m problem) = (row0 + r <? m problem)) /\
    forall tid, 0 <= tid < blockDim ->
      prefetch_row kM kN problem (mkLaunch g b blockDim tid) = Ok row0 /\
      exists evs,
        prefetch_rownorm kM kN fuel problem (mkLaunch g b blockDim tid) col
          = Ok evs /\
        NoDup evs /\
        Forall (fun ev =>
                  exists x,
                    ev = CpAsync x (row0 + x) (int_add row0 x <? m problem) /\
                    0 <= x < kM) evs /\
        (In (CpAsync r (row0 + r) (int_add row0 r <? m problem)) evs
           <-> tid = r mod blockDim).
Proof.
  intros HkN Hn Hn' Hm0 Hg Hb Hbd HkM Hfuel Hcol Hr.
  pose proof INT_MAX_eq as Hmax.
  assert (Hcols : u32 (column (grid_shape_ kM kN problem)) <> 0).
  { rewrite grid_column_u32 by lia.
    pose proof (ceil_div_pos (n problem) kN HkN ltac:(lia)). lia. }
  assert (Hrow : exists row0,
            row0 = s32 row0 /\
            forall tid,
              prefetch_row kM kN problem (mkLaunch g b blockDim tid) = Ok row0).
  { unfold prefetch_row, udiv.
    destruct (Z.eqb_spec (u32 (column (grid_shape_ kM kN problem))) 0);
      [contradiction|].
    cbn [bind].
    exists (s32 (u32 (problem_chunk_start kM kN problem (mkLaunch g b blockDim 0)
                      / u32 (column (grid_shape_ kM kN problem)) * u32 kM))).
    split; [symmetry; apply s32_exact; apply s32_range|].
    intros tid. unfold problem_chunk_start, problem_chunk.
    cbn [gridDim_x blockIdx_x]. reflexivity. }
  destruct Hrow as (row0 & Hs32 & Hrow). exists row0.
  split.
  { intros Hfit. pose proof (s32_range row0) as Hrg. rewrite <- Hs32 in Hrg.
    rewrite int_add_exact by lia. reflexivity. }
  intros tid Htid.
  split; [apply Hrow|].
  destruct (strided_rows_spec kM blockDim ltac:(lia) ltac:(lia)
              fuel tid ltac:(lia) ltac:(lia)) as (rows & Hrows & Hnd & Hin).
  unfold prefetch_rownorm. destruct (Z.eqb_spec col 0); [contradiction|].
  rewrite Hrow. cbn [bind blockDim_x threadIdx_x]. rewrite s32_small by lia.
  rewrite Hrows. cbn [bind]. eexists. split; [reflexivity|].
  split.
  { apply Injective_map_NoDup; [|exact Hnd]. intros x y E. now injection E. }
  split.
  { apply Forall_forall. intros ev Hev. apply in_map_iff in Hev.
    destruct Hev as (x & <- & Hx). exists x. split; [reflexivity|].
    apply Hin in Hx. lia. }
  rewrite <- (strided_owner blockDim tid r) by lia.
  rewrite in_map_iff. split.
  - intros (x & E & Hx). injection E as -> _ _. apply Hin in Hx. lia.
  - intros (Hle & Hm). exists r. split; [reflexivity|]. apply Hin. lia.
Qed.

Lemma rownorm_staged_once_witness :
  exists row0 evs,
    prefetch_row 4 4 problem_8x12 (mkLaunch 4 2 2 1) = Ok row0 /\
    prefetch_rownorm 4 4 4 problem_8x12 (mkLaunch 4 2 2 1) 4 = Ok evs /\
    (In (CpAsync 3 (row0 + 3) (int_add row0 3 <? 8)) evs <-> 1 = 3 mod 2).
Proof.
  destruct (rownorm_staged_once 4 4 problem_8x12 4 2 2 4 4 3)
    as (row0 & _ & Hall).
  - closed_arith.
  - closed_arith.
  - closed_arith.
  - closed_arith.
  - closed_arith.
  - closed_arith.
  - closed_arith.
  - closed_arith.
  - closed_arith.
  - closed_arith.
  - closed_arith.
  - destruct (Hall 1) as (Hrow & evs & Hrun & _ & _ & Hiff).
    + closed_arith.
    + exists row0, evs. split; [exact Hrow|]. split; [exact Hrun|exact Hiff].
Defined.

(** ** Host structures *)

Section UpdateFacts.

Variables O A B C T : Type.
Variable mkA : Z -> A.
Variable mkB : Z -> B.
Variable mkC : Z -> C.
Variable mkT : Z -> O -> T.

Local Abbreviation params := (Params O A B C T).

(** The members [update] never assigns keep their values over any
    sequence of updates. *)
Lemma updates_keep_members (updates : list (Arguments O)) :
  forall p : params,
    problem_visitor _ _ _ _ _ (fold_left update updates p)
      = problem_visitor _ _ _ _ _ p /\
    params_A _ _ _ _ _ (fold_left update updates p) = params_A _ _ _ _ _ p /\
    params_B _ _ _ _ _ (fold_left update updates p) = params_B _ _ _ _ _ p /\
    params_C _ _ _ _ _ (fold_left update updates p) = params_C _ _ _ _ _ p /\
    params_Tensor _ _ _ _ _ (fold_left update updates p)
      = params_Tensor _ _ _ _ _ p.
Proof.
  induction updates as [|a updates IH]; intros p; [repeat split|].
  cbn [fold_left]. destruct (IH (update p a)) as (E1 & E2 & E3 & E4 & E5).
  rewrite E1, E2, E3, E4, E5. repeat split.
Qed.

Lemma update_from_kept (p q : params) (args : Arguments O) :
  problem_visitor _ _ _ _ _ p = problem_visitor _ _ _ _ _ q ->
  params_A _ _ _ _ _ p = params_A _ _ _ _ _ q ->
  params_B _ _ _ _ _ p = params_B _ _ _ _ _ q ->
  params_C _ _ _ _ _ p = params_C _ _ _ _ _ q ->
  params_Tensor _ _ _ _ _ p = params_Tensor _ _ _ _ _ q ->
  update p args = update q args.
Proof.
  unfold update. intros -> -> -> -> ->. reflexivity.
Qed.

End UpdateFacts.

(** X10.  After any sequence of calls of [Params::update], the parameters
    are those a single call with the last arguments would have produced:
    earlier updates leave no trace, and the problem count and the four
    iterator parameter blocks are still those held before the first call. *)
Theorem update_last_wins
    (O A B C T : Type) (p : Params O A B C T)
    (earlier : list (Arguments O)) (last : Arguments O) :
  fold_left update (earlier ++ [last]) p = update p last /\
  problem_count (problem_visitor _ _ _ _ _ (fold_left update (earlier ++ [last]) p))
    = problem_count (problem_visitor _ _ _ _ _ p) /\
  params_A _ _ _ _ _ (fold_left update (earlier ++ [last]) p)
    = params_A _ _ _ _ _ p /\
  params_B _ _ _ _ _ (fold_left update (earlier ++ [last]) p)
    = params_B _ _ _ _ _ p /\
  params_C _ _ _ _ _ (fold_left update (earlier ++ [last]) p)
    = params_C _ _ _ _ _ p /\
  params_Tensor _ _ _ _ _ (fold_left update (earlier ++ [last]) p)
    = params_Tensor _ _ _ _ _ p.
Proof.
  assert (E : fold_left update (earlier ++ [last]) p = update p last).
  { rewrite fold_left_app. cbn [fold_left].
    destruct (updates_keep_members O A B C T earlier p)
      as (E1 & E2 & E3 & E4 & E5).
    now apply update_from_kept. }
  rewrite E. repeat split.
Qed.

(** X11.  Updating parameters built from [a1] with arguments [a2] gives
    the parameters built from [a2] whenever the two agree on the four
    leading dimensions, the epilogue parameters and the problem count;
    without that agreement the iterator parameters and the problem count
    remain those derived from [a1]. *)
Theorem update_matches_construction
    (O A B C T : Type)
    (mkA : Z -> A) (mkB : Z -> B) (mkC : Z -> C) (mkT : Z -> O -> T)
    (a1 a2 : Arguments O) :
  (a_lda _ a1 = a_lda _ a2 ->
   a_ldb _ a1 = a_ldb _ a2 ->
   a_ldc _ a1 = a_ldc _ a2 ->
   a_ldt _ a1 = a_ldt _ a2 ->
   a_output_op _ a1 = a_output_op _ a2 ->
   problem_count (a_problem_visitor _ a1) = problem_count (a_problem_visitor _ a2) ->
   update (Params_of_Arguments mkA mkB mkC mkT a1) a2
   = Params_of_Arguments mkA mkB mkC mkT a2) /\
  params_A _ _ _ _ _ (update (Params_of_Arguments mkA mkB mkC mkT a1) a2)
    = mkA (a_lda _ a1) /\
  params_B _ _ _ _ _ (update (Params_of_Arguments mkA mkB mkC mkT a1) a2)
    = mkB (a_ldb _ a1) /\
  params_C _ _ _ _ _ (update (Params_of_Arguments mkA mkB mkC mkT a1) a2)
    = mkC (a_ldc _ a1) /\
  params_Tensor _ _ _ _ _ (update (Params_of_Arguments mkA mkB mkC mkT a1) a2)
    = mkT (a_ldt _ a1) (a_output_op _ a1) /\
  lda _ _ _ _ _ (update (Params_of_Arguments mkA mkB mkC mkT a1) a2)
    = a_lda _ a2.
Proof.
  split; [|repeat split].
  intros E1 E2 E3 E4 E5 E6.
  unfold update, Params_of_Arguments. cbn.
  rewrite E1, E2, E3, E4, E5, E6. reflexivity.
Qed.

Lemma update_matches_construction_witness :
  update (Params_of_Arguments (fun x => x) (fun x => x) (fun x => x)
            (fun x (_ : unit) => x) misaligned_arguments)
         misaligned_arguments
  = Params_of_Arguments (fun x => x) (fun x => x) (fun x => x)
      (fun x (_ : unit) => x) misaligned_arguments.
Proof.
  apply (proj1 (update_matches_construction unit Z Z Z Z
                  (fun x => x) (fun x => x) (fun x => x) (fun x _ => x)
                  misaligned_arguments misaligned_arguments));
    reflexivity.
Defined.

(** X12.  The problem count given to the [Arguments] constructor reaches
    [Params] through [problem_visitor]; the member [problem_count] of
    [Arguments], which the constructor leaves uninitialised, has no
    influence on the parameters built from the arguments. *)
Theorem constructed_params_ignore_indeterminate
    (O A B C T : Type)
    (mkA : Z -> A) (mkB : Z -> B) (mkC : Z -> C) (mkT : Z -> O -> T)
    (v1 v2 : Z) (problem_sizes : GemmCoord) (count blocks : Z) (op : O)
    (pA pB pC pV pT : pointer) (la lb lc lt : Z) (host : pointer) :
  Params_of_Arguments mkA mkB mkC mkT
    (Arguments_ctor v1 problem_sizes count blocks op pA pB pC pV pT la lb lc lt host)
  = Params_of_Arguments mkA mkB mkC mkT
      (Arguments_ctor v2 problem_sizes count blocks op pA pB pC pV pT la lb lc lt host)
  /\
  problem_count
    (problem_visitor _ _ _ _ _
       (Params_of_Arguments mkA mkB mkC mkT
          (Arguments_ctor v1 problem_sizes count blocks op pA pB pC pV pT
             la lb lc lt host))) = count /\
  problem_size _ _ _ _ _
    (Params_of_Arguments mkA mkB mkC mkT
       (Arguments_ctor v1 problem_sizes count blocks op pA pB pC pV pT
          la lb lc lt host)) = problem_sizes /\
  threadblock_count _ _ _ _ _
    (Params_of_Arguments mkA mkB mkC mkT
       (Arguments_ctor v1 problem_sizes count blocks op pA pB pC pV pT
          la lb lc lt host)) = blocks.
Proof. repeat split. Qed.

(** ** Warps and lanes *)

(** X13.  For a thread of a block of [kThreadCount] threads, [warp_idx] is
    [threadIdx.x / 32] and is the same for all threads of a warp,
    [lane_idx] is below [warp_size()], the pair determines the thread
    ([threadIdx.x = warp_idx * 32 + lane_idx]) and [warp_idx] is below the
    warp count. *)
Theorem warp_lane_decomposition (kWarpCount threadIdx : Z) :
  kWarpCount <= 32 ->
  0 <= threadIdx < kThreadCount kWarpCount ->
  warp_idx threadIdx = threadIdx / 32 /\
  0 <= warp_idx threadIdx < kWarpCount /\
  0 <= lane_idx threadIdx < warp_size /\
  threadIdx = warp_idx threadIdx * warp_size + lane_idx threadIdx /\
  (forall other, 0 <= other < kThreadCount kWarpCount ->
     other / 32 = threadIdx / 32 -> warp_idx other = warp_idx threadIdx) /\
  (forall other, 0 <= other < kThreadCount kWarpCount ->
     warp_idx other = warp_idx threadIdx ->
     lane_idx other = lane_idx threadIdx -> other = threadIdx).
Proof.
  unfold kThreadCount, warp_size. intros Hw Ht.
  pose proof INT_MAX_eq as Hmax.
  assert (Hwarp : forall t, 0 <= t < 32 * kWarpCount ->
            warp_idx t = t / 32 /\ lane_idx t = t mod 32 /\
            0 <= t / 32 < kWarpCount /\ 0 <= t mod 32 < 32 /\
            t = 32 * (t / 32) + t mod 32).
  { intros t Ht'.
    pose proof (Z.div_mod t 32 ltac:(lia)) as Hdm.
    pose proof (Z.mod_pos_bound t 32 ltac:(lia)) as Hmb.
    assert (Hq : 0 <= t / 32 < kWarpCount).
    { split; [apply Z.div_pos; lia|]. apply Z.div_lt_upper_bound; lia. }
    unfold warp_idx, lane_idx, shfl_sync_lane0.
    replace ((t - t mod 32) / 32) with (t / 32)
      by (apply (Z.div_unique _ _ _ 0); lia).
    rewrite !s32_small by lia. repeat split; lia. }
  destruct (Hwarp threadIdx Ht) as (Ew & El & Hq & Hr & Hdm).
  rewrite Ew, El. repeat split; try lia.
  - intros other Ho E. destruct (Hwarp other Ho) as (Ew' & _). congruence.
  - intros other Ho E1 E2.
    destruct (Hwarp other Ho) as (Ew' & El' & _ & _ & Hdm'). 
    rewrite Ew' in E1. rewrite El' in E2. lia.
Qed.

Lemma warp_lane_decomposition_witness :
  warp_idx 70 = 2 /\ lane_idx 70 = 6.
Proof.
  destruct (warp_lane_decomposition 4 70) as (Hw & _ & _ & Hd & _).
  - closed_arith.
  - closed_arith.
  - split; [rewrite Hw; reflexivity|reflexivity].
Defined.

(** ** Printing of host vectors *)

Lemma append_assoc (s1 s2 s3 : string) :
  ((s1 ++ s2) ++ s3 = s1 ++ (s2 ++ s3))%string.
Proof. induction s1 as [|c s1 IH]; cbn; [reflexivity|now rewrite IH]. Qed.

Lemma append_empty_r (s : string) : (s ++ "" = s)%string.
Proof. induction s as [|c s IH]; cbn; [reflexivity|now rewrite IH]. Qed.

Section PrintFacts.

Variable T : Type.
Variable show : T -> string.
Variable host_mem : nat -> T.

Local Abbreviation shown := (fun i => show (host_mem i)).

Lemma print_components_concat (remaining : nat) :
  forall (i : nat) (out : string),
    print_components T show host_mem remaining (S i) (out ++ shown i)%string
    = (out ++ String.concat "," (map shown (seq i (S remaining))))%string.
Proof.
  induction remaining as [|remaining IH]; intros i out.
  - reflexivity.
  - cbn [print_components]. unfold print_component at 1.
    cbn [Nat.eqb negb].
    rewrite IH.
    change (seq i (S (S remaining))) with (i :: seq (S i) (S remaining)).
    cbn [map seq String.concat].
    now rewrite !append_assoc.
Qed.

End PrintFacts.

(** X14.  [print_host_vector] appends to the stream the name, ["=["], the
    first [componentsCount] elements separated by single commas, without a
    leading or trailing comma, and ["];"] with a newline; for an empty
    vector the brackets are adjacent. *)
Theorem print_host_vector_format
    (T : Type) (show : T -> string) (variable_name : string)
    (host_mem : nat -> T) (componentsCount : nat) (out : string) :
  print_host_vector T show variable_name host_mem componentsCount out
  = (out ++ variable_name ++ "=["
       ++ String.concat "," (map (fun i => show (host_mem i))
                                 (seq 0 componentsCount))
       ++ "];" ++ newline)%string.
Proof.
  unfold print_host_vector.
  destruct componentsCount as [|remaining].
  - cbn [print_components seq map String.concat].
    now rewrite !append_assoc.
  - cbn [print_components]. unfold print_component at 1. cbn [Nat.eqb negb].
    rewrite (print_components_concat T show host_mem remaining 0).
    now rewrite !append_assoc.
Qed.

(** ** The kernel as a whole *)



(** X16.  The kernel has work to do exactly when the output is not empty:
    the tile count is zero if and only if [M = 0] or [N = 0], and when the
    output is not empty block 0 of every grid runs at least one tile. *)
Theorem tile_count_zero_iff
    (kM kN kK : Z) (problem : GemmCoord) :
  representable kM kN problem ->
  (tile_count_ (grid_shape_ kM kN problem) = 0 <->
     m problem = 0 \/ n problem = 0) /\
  (1 <= m problem -> 1 <= n problem ->
   forall g fuel,
     1 <= g <= INT_MAX ->
     problem_chunk kM kN problem (unit_launch g 0) <= Z.of_nat fuel ->
     exists evs,
       block_tiles kM kN kK fuel problem (unit_launch g 0) = Ok evs /\
       evs <> []).
Proof.
  intros Hrep.
  destruct (tile_count_exact kM kN problem Hrep) as (HT & _).
  pose proof Hrep as (HkM & HkN & Hm & Hn & _).
  pose proof (ceil_div_bounds (m problem) kM HkM) as Hbm.
  pose proof (ceil_div_bounds (n problem) kN HkN) as Hbn.
  pose proof (ceil_div_nonneg (m problem) kM HkM ltac:(lia)) as Hm0.
  pose proof (ceil_div_nonneg (n problem) kN HkN ltac:(lia)) as Hn0.
  split.
  - rewrite HT. split.
    + intros E. apply Z.mul_eq_0 in E. destruct E as [E|E]; [left|right]; nia.
    + intros [E|E]; rewrite E, ceil_div_0 by assumption; lia.
  - intros Hm1 Hn1 g fuel Hg Hfuel.
    assert (Hb0 : 0 <= blockIdx_x (unit_launch g 0) < gridDim_x (unit_launch g 0))
      by (cbn; lia).
    rewrite (problem_chunk_ceil kM kN problem (unit_launch g 0) Hrep Hg) in Hfuel.
    destruct (block_tiles_events kM kN kK problem (unit_launch g 0)
                Hrep Hg Hb0 fuel Hfuel) as (evs & Hrun & _ & Hlen & _).
    exists evs. split; [exact Hrun|].
    intros ->. cbn [length] in Hlen.
    pose proof (ceil_div_pos (tile_count_ (grid_shape_ kM kN problem))
                  (gridDim_x (unit_launch g 0)) ltac:(cbn; lia)) as Hpos.
    assert (1 <= tile_count_ (grid_shape_ kM kN problem)) by (rewrite HT; nia).
    lia.
Qed.

Lemma tile_count_zero_iff_witness :
  tile_count_ (grid_shape_ 4 4 {| m := 0; n := 8; k := 2 |}) = 0.
Proof.
  destruct (tile_count_zero_iff 4 4 2 {| m := 0; n := 8; k := 2 |})
    as ((_ & Hzero) & _).
  - closed_arith.
  - apply Hzero. left. reflexivity.
Defined.
